(** * SdfParser: assembling a Skeleton from SDF link and joint records

    A shallow embedding of [dart/utils/sdf/SdfParser.cpp]: the two
    registries ([readAllBodyNodes], [readAllJoints]), the tree-assembly
    loop of [readSkeleton] with its helper [getNextJointAndNodePair], the
    pair factory [createPair], the name resolution of [readJoint], the
    version gate of the file-level entry points and the inertia branch of
    [readBodyNode].

    [std::map<std::string, V>] is a [gmap string V] together with the
    least key under byte-wise lexicographic order for [begin()]; an
    iterator is the key it points to, [None] standing for [end()].  A
    [BodyNode*] is the index of the node in the Skeleton's creation-ordered
    list, [None] standing for [nullptr].

    A second, smaller part embeds the reference resolution of
    [dart/common/Uri.cpp]: [removeDotSegments], [mergePaths] and
    [fromRelativeUri], with a [std::string] as a [list ascii]. *)

From stdpp Require Import base option list gmap strings relations.
From Stdlib Require String.
From Stdlib Require Import Ascii.

Open Scope string_scope.
Open Scope list_scope.
Open Scope nat_scope.

(** ** Transforms *)

(** The operations of [Eigen::Isometry3d] that the parser uses. *)
Class Isometry (T : Type) := {
  Identity : T;
  compose : T → T → T;
  inverse : T → T
}.

(** ** Records *)

(** The concrete [dynamics::*Joint] classes a pair can be built with. *)
Inductive JointKind :=
| PrismaticJoint | RevoluteJoint | ScrewJoint | UniversalJoint
| BallJoint | WeldJoint | TranslationalJoint | FreeJoint.

(** Which BodyNode class [createJointAndNodePair<NodeType>] instantiates. *)
Inductive NodeType := RigidBodyNode | SoftBodyNode.

(** Everything the parser writes to [dterr] / [dtwarn]. *)
Inductive Diag :=
| DuplicateLinkName (name : string)
| JointWithoutChild (jointName : string)
| ChildAlreadyClaimed (jointName childName claimedBy : string)
| MissingParentLink (parentName jointName : string)
| MissingChildLink (childName jointName : string)
| UnsupportedLinkType (type : string)
| UnsupportedJointType (type : string)
| NotSdfVersion (filename : string).

#[global] Instance JointKind_eq_dec : EqDecision JointKind.
Proof. solve_decision. Defined.
#[global] Instance NodeType_eq_dec : EqDecision NodeType.
Proof. solve_decision. Defined.
#[global] Instance Diag_eq_dec : EqDecision Diag.
Proof. solve_decision. Defined.

Section Records.
Context {T : Type}.

(** [dynamics::Joint::Properties], with the class of the object the
    shared pointer owns. *)
Record JointProperties := {
  mName : string;
  mT_ParentBodyToJoint : T;
  mT_ChildBodyToJoint : T;
  mClass : JointKind
}.

(** [SdfParser::SDFJoint].  [properties] is the pointee: [readJoint]
    dereferences the pointer before it returns, and the assembly loop
    only ever sees records whose pointer is set. *)
Record SDFJoint := {
  properties : JointProperties;
  parentName : string;
  childName : string;
  type : string
}.

(** [SdfParser::SDFBodyNode]; [body_mName] is [properties->mName]. *)
Record SDFBodyNode := {
  body_mName : string;
  initTransform : T;
  body_type : string
}.

(** A BodyNode of the Skeleton with its parent Joint: what one call of
    [Skeleton::createJointAndBodyNodePair] creates. *)
Record BodyNode := {
  node_type : NodeType;
  joint_kind : JointKind;
  parentBodyNode : option nat;
  joint : SDFJoint;
  body : SDFBodyNode
}.

Definition getName (bn : BodyNode) : string := body_mName (body bn).
End Records.

Arguments JointProperties : clear implicits.
Arguments SDFJoint : clear implicits.
Arguments SDFBodyNode : clear implicits.
Arguments BodyNode : clear implicits.

Abbreviation Skeleton T := (list (BodyNode T)).
Abbreviation BodyMap T := (gmap string (SDFBodyNode T)).
Abbreviation JointMap T := (gmap string (SDFJoint T)).

(** ** [std::map] iteration *)

(** The smaller of two keys under [std::string::operator<]. *)
Definition key_min (acc : option string) (k : string) : option string :=
  match acc with
  | None => Some k
  | Some k' => if String.ltb k k' then Some k else Some k'
  end.

(** [m.begin()]: the least key, [None] on the empty map. *)
Definition begin {V} (m : gmap string V) : option string :=
  foldl key_min None (map_to_list m).*1.

(** ** The assembler *)

(** What [getNextJointAndNodePair] tells the loop to do. *)
Inductive NextResult := VALID | CONTINUE | BREAK | CREATE_FREEJOINT_ROOT.

(** How the [while] loop of [readSkeleton] was left. *)
Inductive Exit := LoopEnd | LoopBreak.

Section Assembler.
Context {T : Type} `{!Isometry T}.

(** The joint-type tags that [createJointAndNodePair] (SdfParser.h)
    accepts, with the joint class each one selects. *)
Variable jointKind : string → option JointKind.

(** *** Registries *)

(** Body of the loop of [readAllBodyNodes] once [bodyReader] has
    returned [body]: the first link of a name is kept. *)
Definition addBodyNode (acc : BodyMap T * list Diag) (body : SDFBodyNode T)
  : BodyMap T * list Diag :=
  match acc.1 !! body_mName body with
  | Some _ => (acc.1, acc.2 ++ [DuplicateLinkName (body_mName body)])
  | None => (<[body_mName body := body]> acc.1, acc.2)
  end.

Definition readAllBodyNodes (bodies : list (SDFBodyNode T))
  : BodyMap T * list Diag :=
  foldl addBodyNode (∅, []) bodies.

(** Body of the loop of [readAllJoints] once [readJoint] has returned
    [joint]. *)
Definition addJoint (acc : JointMap T * list Diag) (joint : SDFJoint T)
  : JointMap T * list Diag :=
  if decide (childName joint = "") then
    (acc.1, acc.2 ++ [JointWithoutChild (mName (properties joint))])
  else
    match acc.1 !! childName joint with
    | Some claimed =>
        (acc.1, acc.2 ++ [ChildAlreadyClaimed (mName (properties joint))
                            (childName joint)
                            (mName (properties claimed))])
    | None => (<[childName joint := joint]> acc.1, acc.2)
    end.

Definition collectJoints (joints : list (SDFJoint T))
  : JointMap T * list Diag :=
  foldl addJoint (∅, []) joints.

(** *** Skeleton *)

(** Modelled from the spec: [Skeleton::getBodyNode(name)] is declared in
    Skeleton.h, which is not part of the sources; it looks up an
    already-materialized BodyNode by name. *)
Definition getBodyNode (skeleton : Skeleton T) (name : string) : option nat :=
  fst <$> list_find (λ bn, getName bn = name) skeleton.

(** Modelled from the spec: [createJointAndNodePair<NodeType>] is a
    template of SdfParser.h, which is not part of the sources.  It
    dispatches on the joint's type tag, appends the new BodyNode with
    its parent Joint to the Skeleton, and reports an unknown tag. *)
Definition createJointAndNodePair (nt : NodeType) (skeleton : Skeleton T)
    (parent : option nat) (newJoint : SDFJoint T) (newBody : SDFBodyNode T)
  : option (Skeleton T) * list Diag :=
  match jointKind (type newJoint) with
  | Some k =>
      (Some (skeleton ++ [{| node_type := nt; joint_kind := k;
                             parentBodyNode := parent;
                             joint := newJoint; body := newBody |}]), [])
  | None => (None, [UnsupportedJointType (type newJoint)])
  end.

(** [SdfParser::createPair]: [None] is the [false] return. *)
Definition createPair (skeleton : Skeleton T) (parent : option nat)
    (newJoint : SDFJoint T) (newBody : SDFBodyNode T)
  : option (Skeleton T) * list Diag :=
  if decide (body_type newBody = "") then
    createJointAndNodePair RigidBodyNode skeleton parent newJoint newBody
  else if decide ("soft" = body_type newBody) then
    createJointAndNodePair SoftBodyNode skeleton parent newJoint newBody
  else
    (None, [UnsupportedLinkType (body_type newBody)]).

(** *** One query of the cursor *)

(** The in/out parameters of [getNextJointAndNodePair] after the call. *)
Record NextOut := {
  result : NextResult;
  next_it : string;
  next_child : option string;
  next_parent : option nat;
  next_dterr : list Diag
}.

(** [getNextJointAndNodePair]; [it] points at [joint]. *)
Definition getNextJointAndNodePair (it : string) (joint : SDFJoint T)
    (child : option string) (skeleton : Skeleton T)
    (sdfJoints : JointMap T) (sdfBodyNodes : BodyMap T) : NextOut :=
  let parent := getBodyNode skeleton (parentName joint) in
  let find_child (result : NextResult) :=
    match sdfBodyNodes !! childName joint with
    | None =>
        {| result := BREAK; next_it := it; next_child := None;
           next_parent := parent;
           next_dterr := [MissingChildLink (childName joint)
                            (mName (properties joint))] |}
    | Some _ =>
        {| result := result; next_it := it;
           next_child := Some (childName joint);
           next_parent := parent; next_dterr := [] |}
    end in
  if bool_decide (parent = None)
     && bool_decide (parentName joint ≠ "world")
     && bool_decide (parentName joint ≠ "") then
    match sdfJoints !! parentName joint with
    | None =>
        match sdfBodyNodes !! parentName joint with
        | None =>
            {| result := BREAK; next_it := it; next_child := child;
               next_parent := parent;
               next_dterr := [MissingParentLink (parentName joint)
                                (mName (properties joint))] |}
        | Some _ => find_child CREATE_FREEJOINT_ROOT
        end
    | Some _ =>
        {| result := CONTINUE; next_it := parentName joint;
           next_child := child; next_parent := parent; next_dterr := [] |}
    end
  else find_child VALID.

(** *** The loop of [readSkeleton] *)

(** The local variables of [readSkeleton] that the loop updates. *)
Record LoopState := {
  it : option string;
  child : option string;
  parent : option nat;
  newSkeleton : Skeleton T;
  sdfJoints : JointMap T;
  dterr : list Diag
}.

Inductive StepOut :=
| Next (s : LoopState)
| Return (e : Exit) (s : LoopState)
| Undefined.

(** The joint the loop synthesizes for a parent link without a joint. *)
Definition rootJoint (rootNode : SDFBodyNode T) : SDFJoint T :=
  {| properties := {| mName := "root";
                      mT_ParentBodyToJoint := initTransform rootNode;
                      mT_ChildBodyToJoint := Identity;
                      mClass := FreeJoint |};
     parentName := ""; childName := ""; type := "free" |}.

(** One evaluation of the loop condition and, if it holds, of the loop
    body.  [Undefined] stands for dereferencing an iterator that is not
    in its map. *)
Definition step (sdfBodyNodes : BodyMap T) (s : LoopState) : StepOut :=
  match it s with
  | None => Return LoopEnd s
  | Some k =>
      match sdfJoints s !! k with
      | None => Undefined
      | Some cur =>
          let o := getNextJointAndNodePair k cur (child s) (newSkeleton s)
                     (sdfJoints s) sdfBodyNodes in
          let s1 := {| it := Some (next_it o); child := next_child o;
                       parent := next_parent o;
                       newSkeleton := newSkeleton s;
                       sdfJoints := sdfJoints s;
                       dterr := dterr s ++ next_dterr o |} in
          match result o with
          | BREAK => Return LoopBreak s1
          | CONTINUE => Next s1
          | CREATE_FREEJOINT_ROOT =>
              match sdfBodyNodes !! parentName cur with
              | None => Undefined
              | Some rootNode =>
                  match createPair (newSkeleton s) None
                          (rootJoint rootNode) rootNode with
                  | (None, d) =>
                      Return LoopBreak
                        {| it := it s1; child := child s1;
                           parent := parent s1;
                           newSkeleton := newSkeleton s;
                           sdfJoints := sdfJoints s;
                           dterr := dterr s1 ++ d |}
                  | (Some sk, d) =>
                      Next {| it := it s1; child := child s1;
                              parent := parent s1; newSkeleton := sk;
                              sdfJoints := sdfJoints s;
                              dterr := dterr s1 ++ d |}
                  end
              end
          | VALID =>
              match next_child o ≫= (sdfBodyNodes !!.) with
              | None => Undefined
              | Some childNode =>
                  match createPair (newSkeleton s) (next_parent o)
                          cur childNode with
                  | (None, d) =>
                      Return LoopBreak
                        {| it := it s1; child := child s1;
                           parent := parent s1;
                           newSkeleton := newSkeleton s;
                           sdfJoints := sdfJoints s;
                           dterr := dterr s1 ++ d |}
                  | (Some sk, d) =>
                      Next {| it := begin (delete k (sdfJoints s));
                              child := child s1; parent := parent s1;
                              newSkeleton := sk;
                              sdfJoints := delete k (sdfJoints s);
                              dterr := dterr s1 ++ d |}
                  end
              end
          end
      end
  end.

(** The loop: [Some] with the exit taken and the state left behind, or
    [None] when it has not returned within [fuel] evaluations of its
    condition (or an iteration was [Undefined]). *)
Fixpoint loop (fuel : nat) (sdfBodyNodes : BodyMap T) (s : LoopState)
  : option (Exit * LoopState) :=
  match fuel with
  | 0 => None
  | S fuel' =>
      match step sdfBodyNodes s with
      | Next s' => loop fuel' sdfBodyNodes s'
      | Return e s' => Some (e, s')
      | Undefined => None
      end
  end.

(** The state in which [readSkeleton] enters the loop. *)
Definition initState (sdfJoints : JointMap T) (d : list Diag) : LoopState :=
  {| it := begin sdfJoints; child := None; parent := None;
     newSkeleton := []; sdfJoints := sdfJoints; dterr := d |}.

(** [readSkeleton(_skeletonElement, _skelPath)] from the records that
    [bodyReader] and [readJoint] produced for the model's links and
    joints; the exit and the final state are kept beside what the
    function returns, which is [newSkeleton] in either case. *)
Definition assemble (fuel : nat) (links : list (SDFBodyNode T))
    (joints : list (SDFJoint T)) : option (Exit * LoopState) :=
  let sdfBodyNodes := readAllBodyNodes links in
  let sdfJoints := collectJoints joints in
  loop fuel sdfBodyNodes.1
    (initState sdfJoints.1 (sdfBodyNodes.2 ++ sdfJoints.2)).

Definition readSkeleton_records (fuel : nat) (links : list (SDFBodyNode T))
    (joints : list (SDFJoint T)) : option (Skeleton T) :=
  (λ r, newSkeleton r.2) <$> assemble fuel links joints.

End Assembler.

(** ** Chains of pending parents *)

Section Chains.
Context {T : Type}.

(** [k] is pending and asks for the parent [p], the child of another
    pending joint: what a redirection of the cursor follows. *)
Definition parent_edge (m : JointMap T) (k p : string) : Prop :=
  ∃ j, m !! k = Some j ∧ parentName j = p ∧ is_Some (m !! p).

(** No chain of parent names among the joints of [m] leads back to
    where it started. *)
Definition acyclic (m : JointMap T) : Prop :=
  ∀ k, ¬ tc (parent_edge m) k k.

(** Following parent names from [k], the chain leaves [m] within
    [fuel] joints. *)
Fixpoint escapes (fuel : nat) (m : JointMap T) (k : string) : bool :=
  match fuel with
  | 0 => false
  | S fuel' =>
      match m !! k with
      | None => true
      | Some j => escapes fuel' m (parentName j)
      end
  end.

(** A check of [acyclic] that computes. *)
Definition acyclicb (m : JointMap T) : bool :=
  forallb (escapes (S (size m)) m) (map_to_list m).*1.
End Chains.

(** ** Reading joints *)

(** A call that may stop the program instead of returning: a failed
    [assert] (assertions compiled in) or a dereferenced null pointer. *)
Inductive outcome (A : Type) :=
| Ok (a : A)
| AssertFailed
| NullDereference.
Arguments Ok {A} a.
Arguments AssertFailed {A}.
Arguments NullDereference {A}.

Definition and_then {A B} (x : outcome A) (f : A → outcome B) : outcome B :=
  match x with
  | Ok a => f a
  | AssertFailed => AssertFailed
  | NullDereference => NullDereference
  end.

Notation "'do' x ← y ; z" := (and_then y (λ x, z))
  (at level 10, x name, y at level 100, z at level 200, only parsing).

(** What a file-level entry point hands back: the pointer it returns
    ([None] is [nullptr]) and what was written to [dterr]. *)
Record Loaded (A : Type) := {
  returned : option A;
  reported : list Diag
}.
Arguments returned {A} _.
Arguments reported {A} _.

Section ReadJoint.
Context {T : Type} `{!Isometry T}.

(** The parts of a [<joint>] element that [readJoint] consults. *)
Record JointElement := {
  je_type : string;
  je_name : string;
  je_parent : option string;
  je_child : option string;
  je_pose : option T;
  je_axis : bool;
  je_axis2 : bool
}.

(** The [<link>] and [<joint>] children of a [<model>] element; a link is
    given by what [bodyReader] returns for it. *)
Record ModelElement := {
  links : list (SDFBodyNode T);
  joints : list JointElement
}.

(** The class of [Properties] that the chain of [if]s in [readJoint]
    allocates for a type tag, with the elements its reader insists on;
    [Ok None] leaves [newJoint.properties] null. *)
Definition readJointProperties (e : JointElement) : outcome (option JointKind) :=
  let need_axis (k : JointKind) :=
    if je_axis e then Ok (Some k) else AssertFailed in
  if decide (je_type e = "prismatic") then need_axis PrismaticJoint
  else if decide (je_type e = "revolute") then need_axis RevoluteJoint
  else if decide (je_type e = "screw") then need_axis ScrewJoint
  else if decide (je_type e = "revolute2") then
    if je_axis e && je_axis2 e then Ok (Some UniversalJoint) else AssertFailed
  else if decide (je_type e = "ball") then Ok (Some BallJoint)
  else Ok None.

(** [SdfParser::readJoint]. *)
Definition readJoint (e : JointElement) (_sdfBodyNodes : BodyMap T)
  : outcome (SDFJoint T) :=
  do _ ← (if decide (je_type e = "") then AssertFailed else Ok ());
  do parent_it ← match je_parent e with
              | Some strParent =>
                  if decide (strParent ≠ "world") then
                    match _sdfBodyNodes !! strParent with
                    | Some _ => Ok (Some strParent)
                    | None => AssertFailed
                    end
                  else Ok None
              | None => AssertFailed
              end;
  do child_it ← match je_child e with
             | Some strChild =>
                 match _sdfBodyNodes !! strChild with
                 | Some _ => Ok strChild
                 | None => AssertFailed
                 end
             | None => AssertFailed
             end;
  let parentName := match parent_it with None => "" | Some p => p end in
  let childName := match parent_it with None => "" | Some _ => child_it end in
  let parentWorld :=
    default Identity (initTransform <$> (parent_it ≫= (_sdfBodyNodes !!.))) in
  let childWorld :=
    default Identity (initTransform <$> (_sdfBodyNodes !! child_it)) in
  let childToJoint := default Identity (je_pose e) in
  let parentToJoint :=
    compose (compose (inverse parentWorld) childWorld) childToJoint in
  do props ← readJointProperties e;
  match props with
  | None => NullDereference
  | Some k =>
      Ok {| properties := {| mName := je_name e;
                             mT_ParentBodyToJoint := parentToJoint;
                             mT_ChildBodyToJoint := childToJoint;
                             mClass := k |};
            parentName := parentName; childName := childName;
            type := je_type e |}
  end.

(** [SdfParser::readAllJoints], continuing from the registry [acc]. *)
Fixpoint readAllJoints_from (acc : JointMap T * list Diag)
    (elems : list JointElement) (sdfBodyNodes : BodyMap T)
  : outcome (JointMap T * list Diag) :=
  match elems with
  | [] => Ok acc
  | e :: elems' =>
      do joint ← readJoint e sdfBodyNodes;
      readAllJoints_from (addJoint acc joint) elems' sdfBodyNodes
  end.

Definition readAllJoints (elems : list JointElement)
    (sdfBodyNodes : BodyMap T) : outcome (JointMap T * list Diag) :=
  readAllJoints_from (∅, []) elems sdfBodyNodes.

Variable jointKind : string → option JointKind.

(** [readSkeleton(_skeletonElement, _skelPath)]: [None] when the loop has
    not returned within [fuel] evaluations of its condition. *)
Definition readSkeleton (fuel : nat) (m : ModelElement)
  : outcome (option (Exit * LoopState)) :=
  let sdfBodyNodes := readAllBodyNodes (links m) in
  do sdfJoints ← readAllJoints (joints m) sdfBodyNodes.1;
  Ok (loop jointKind fuel sdfBodyNodes.1
        (initState sdfJoints.1 (sdfBodyNodes.2 ++ sdfJoints.2))).

(** *** File-level entry points *)

Record WorldElement := {
  world_name : string;
  world_models : list ModelElement
}.

(** The root [<sdf>] element: the value of its [version] attribute and
    its first [<world>] and [<model>] children. *)
Record SdfElement := {
  version : string;
  sdf_world : option WorldElement;
  sdf_model : option ModelElement
}.

(** A loaded document: its first [<sdf>] child, if any. *)
Record XMLDocument := { sdfElement : option SdfElement }.

Record World := {
  getName_world : string;
  skeletons : list (Skeleton T)
}.

(** The [while] loop of [readWorld] over the [<model>] elements: the
    Skeletons added to the World and what building them reported.  A
    model that has not returned ([None]) ends the reading: the models
    after it are not looked at. *)
Fixpoint readSkeletons (fuel : nat) (ms : list ModelElement)
  : outcome (option (list (Skeleton T) * list Diag)) :=
  match ms with
  | [] => Ok (Some ([], []))
  | m :: ms' =>
      do r ← readSkeleton fuel m;
      match r with
      | None => Ok None
      | Some r =>
          do rs ← readSkeletons fuel ms';
          Ok (rs ← rs; Some (newSkeleton r.2 :: rs.1, dterr r.2 ++ rs.2))
      end
  end.

(** [SdfParser::readWorld]. *)
Definition readWorld (fuel : nat) (w : WorldElement)
  : outcome (option (Loaded World)) :=
  do sks ← readSkeletons fuel (world_models w);
  Ok ((λ sks, {| returned := Some {| getName_world := world_name w;
                                     skeletons := sks.1 |};
                 reported := sks.2 |}) <$> sks).

(** [openXMLFile]: [None] when it throws. *)
Variable openXMLFile : string → option XMLDocument.

(** [SdfParser::readSdfFile(_filename)]; the inner [None] as in
    [readSkeleton]. *)
Definition readSdfFile (fuel : nat) (_filename : string)
  : outcome (option (Loaded World)) :=
  match openXMLFile _filename with
  | None => Ok (Some {| returned := None; reported := [] |})
  | Some _dartFile =>
      match sdfElement _dartFile with
      | None => Ok (Some {| returned := None; reported := [] |})
      | Some sdf =>
          if bool_decide (version sdf ≠ "1.4")
             && bool_decide (version sdf ≠ "1.5") then
            Ok (Some {| returned := None;
                        reported := [NotSdfVersion _filename] |})
          else
            match sdf_world sdf with
            | None => Ok (Some {| returned := None; reported := [] |})
            | Some worldElement => readWorld fuel worldElement
            end
      end
  end.

(** [SdfParser::readSkeleton(_filename)]. *)
Definition readSkeleton_file (fuel : nat) (_filename : string)
  : outcome (option (Loaded (Skeleton T))) :=
  match openXMLFile _filename with
  | None => Ok (Some {| returned := None; reported := [] |})
  | Some _dartFile =>
      match sdfElement _dartFile with
      | None => Ok (Some {| returned := None; reported := [] |})
      | Some sdf =>
          if bool_decide (version sdf ≠ "1.4")
             && bool_decide (version sdf ≠ "1.5") then
            Ok (Some {| returned := None;
                        reported := [NotSdfVersion _filename] |})
          else
            match sdf_model sdf with
            | None => Ok (Some {| returned := None; reported := [] |})
            | Some skelElement =>
                do r ← readSkeleton fuel skelElement;
                Ok ((λ r, {| returned := Some (newSkeleton r.2);
                             reported := dterr r.2 |}) <$> r)
            end
      end
  end.

End ReadJoint.

(** ** Reading the inertia of a link *)

Section ReadBodyNode.
(** [double], [Eigen::Isometry3d] and [dynamics::Shape] objects. *)
Context {double T Shape : Type}.

(** A 3x3 matrix, read by [Ic(i,j)]. *)
Definition Matrix3d := nat → nat → double.

(** [Shape::computeInertia(mass)]. *)
Variable computeInertia : Shape → double → Matrix3d.

(** [T.translation()]. *)
Variable translation : T → double * double * double.

(** The six entries [setMoment] takes: ixx iyy izz ixy ixz iyz. *)
Record Moment := {
  ixx : double; iyy : double; izz : double;
  ixy : double; ixz : double; iyz : double
}.

(** [dynamics::Inertia]. *)
Record Inertia := {
  getMass : double;
  getLocalCOM : double * double * double;
  getMoment : Moment
}.

Definition setMass (i : Inertia) (m : double) : Inertia :=
  {| getMass := m; getLocalCOM := getLocalCOM i; getMoment := getMoment i |}.
Definition setLocalCOM (i : Inertia) (c : double * double * double) : Inertia :=
  {| getMass := getMass i; getLocalCOM := c; getMoment := getMoment i |}.
Definition setMoment (i : Inertia) (m : Moment) : Inertia :=
  {| getMass := getMass i; getLocalCOM := getLocalCOM i; getMoment := m |}.

(** The children of an [<inertial>] element. *)
Record InertialElement := {
  ie_mass : option double;
  ie_pose : option T;
  ie_inertia : option Moment
}.

(** The parts of a [<link>] element behind the shapes and the inertia:
    per [<visual>] and per [<collision>] child what [readShape] returned
    for it ([None] is a null [ShapePtr]), and the [<inertial>] child. *)
Record LinkElement := {
  le_visual : list (option Shape);
  le_collision : list (option Shape);
  le_inertial : option InertialElement
}.

(** [dynamics::BodyNode::Properties], the members filled in here. *)
Record BodyNodeProperties := {
  mVizShapes : list Shape;
  mColShapes : list Shape;
  mInertia : Inertia
}.

(** The [push_back] loop over the shapes read: nulls are skipped. *)
Definition pushShapes (read : list (option Shape)) : list Shape :=
  omap id read.

(** The [inertial] block of [readBodyNode], from the Inertia built so
    far and the visual shapes already stored. *)
Definition readInertial (mVizShapes : list Shape) (e : InertialElement)
    (i0 : Inertia) : Inertia :=
  let i1 := match ie_mass e with Some mass => setMass i0 mass | None => i0 end in
  let i2 := match ie_pose e with
            | Some p => setLocalCOM i1 (translation p)
            | None => i1
            end in
  match ie_inertia e with
  | Some moi => setMoment i2 moi
  | None =>
      match mVizShapes with
      | shape :: _ =>
          let Ic := computeInertia shape (getMass i2) in
          setMoment i2 {| ixx := Ic 0 0; iyy := Ic 1 1; izz := Ic 2 2;
                          ixy := Ic 0 1; ixz := Ic 0 2; iyz := Ic 1 2 |}
      | [] => i2
      end
  end.

(** [SdfParser::readBodyNode], its shapes and inertia; [inertia0] is
    the default-constructed [Inertia] of a fresh [Properties]. *)
Definition readBodyNode (inertia0 : Inertia) (e : LinkElement)
  : BodyNodeProperties :=
  let viz := pushShapes (le_visual e) in
  let col := pushShapes (le_collision e) in
  {| mVizShapes := viz; mColShapes := col;
     mInertia := match le_inertial e with
                 | Some inertiaElement =>
                     readInertial viz inertiaElement inertia0
                 | None => inertia0
                 end |}.

End ReadBodyNode.

(** ** The cases of an iteration, and what the loop maintains *)

Section LoopCases.
Context {T : Type} `{!Isometry T}.
Variable jointKind : string → option JointKind.
Variables (sdfBodyNodes : BodyMap T) (registry : JointMap T).
Implicit Types (s : @LoopState T) (cur : SDFJoint T) (bn : BodyNode T).

(** The parent of [cur] needs no further work: it is in the Skeleton, or
    [cur] names the world or nothing as its parent. *)
Definition resolved s cur : Prop :=
  is_Some (getBodyNode (newSkeleton s) (parentName cur))
  ∨ parentName cur = "world" ∨ parentName cur = "".

(** The five ways an iteration can go from [s]: the condition fails; a
    [break]; a redirection of the cursor to the pending joint of the
    parent; a root for a parent link that no pending joint claims; the
    pair of the joint under the cursor, which is then erased. *)
Inductive step_spec s : StepOut → Prop :=
| step_end :
    it s = None → step_spec s (Return LoopEnd s)
| step_break k cur s' d :
    it s = Some k → sdfJoints s !! k = Some cur →
    newSkeleton s' = newSkeleton s → sdfJoints s' = sdfJoints s →
    dterr s' = dterr s ++ [d] →
    step_spec s (Return LoopBreak s')
| step_redirect k cur s' :
    it s = Some k → sdfJoints s !! k = Some cur →
    ¬ resolved s cur → is_Some (sdfJoints s !! parentName cur) →
    it s' = Some (parentName cur) →
    newSkeleton s' = newSkeleton s → sdfJoints s' = sdfJoints s →
    step_spec s (Next s')
| step_root k cur rootNode nt jk s' :
    it s = Some k → sdfJoints s !! k = Some cur →
    ¬ resolved s cur → sdfJoints s !! parentName cur = None →
    sdfBodyNodes !! parentName cur = Some rootNode →
    it s' = Some k → sdfJoints s' = sdfJoints s →
    newSkeleton s'
    = newSkeleton s ++ [{| node_type := nt; joint_kind := jk;
                           parentBodyNode := None;
                           joint := rootJoint rootNode;
                           body := rootNode |}] →
    step_spec s (Next s')
| step_valid k cur childNode nt jk s' :
    it s = Some k → sdfJoints s !! k = Some cur →
    resolved s cur → sdfBodyNodes !! childName cur = Some childNode →
    it s' = begin (delete k (sdfJoints s)) →
    sdfJoints s' = delete k (sdfJoints s) →
    newSkeleton s'
    = newSkeleton s
      ++ [{| node_type := nt; joint_kind := jk;
             parentBodyNode :=
               getBodyNode (newSkeleton s) (parentName cur);
             joint := cur; body := childNode |}] →
    step_spec s (Next s').

(** The loop goes round once more, from [s] to [s']. *)
Definition steps_to s s' : Prop := step jointKind sdfBodyNodes s = Next s'.

(** What is known of the [i]-th BodyNode of the Skeleton: it is a link
    of the model; its parent, if it has one, is an earlier BodyNode that
    bears the name its joint asks for; and it was built either from the
    registered joint of that link, which is no longer pending, or as the
    root of a link that no joint claims. *)
Definition node_ok (sk : Skeleton T) (pending : JointMap T)
    (i : nat) bn : Prop :=
  sdfBodyNodes !! getName bn = Some (body bn)
  ∧ (∀ p, parentBodyNode bn = Some p →
          p < i ∧ ∃ pb, sk !! p = Some pb
                        ∧ getName pb = parentName (joint bn))
  ∧ ((registry !! getName bn = Some (joint bn)
      ∧ pending !! getName bn = None
      ∧ (parentBodyNode bn = None →
         parentName (joint bn) = "world" ∨ parentName (joint bn) = ""))
     ∨ (registry !! getName bn = None
        ∧ joint bn = rootJoint (body bn)
        ∧ parentBodyNode bn = None)).

(** What holds each time the loop condition is evaluated: the cursor is
    [end()] only on an empty registry and otherwise points into it; the
    pending joints are registered ones; a registered joint that is no
    longer pending has its child in the Skeleton; no two BodyNodes share
    a name; and every BodyNode is as [node_ok] says. *)
Record Inv s : Prop := {
  inv_it : match it s with
           | None => sdfJoints s = ∅
           | Some k => is_Some (sdfJoints s !! k)
           end;
  inv_pending : sdfJoints s ⊆ registry;
  inv_built : ∀ k, is_Some (registry !! k) → sdfJoints s !! k = None →
                   k ∈ getName <$> newSkeleton s;
  inv_nodup : NoDup (getName <$> newSkeleton s);
  inv_nodes : ∀ i bn, newSkeleton s !! i = Some bn →
                      node_ok (newSkeleton s) (sdfJoints s) i bn
}.
End LoopCases.

(** ** Inputs the loop can build *)

(** The reports of [getNextJointAndNodePair] about a link it cannot
    find. *)
Definition missing_report (d : Diag) : bool :=
  match d with
  | MissingParentLink _ _ | MissingChildLink _ _ => true
  | _ => false
  end.

Section Buildable.
Context {T : Type}.
Variable jointKind : string → option JointKind.
Variables (sdfBodyNodes : BodyMap T) (registry : JointMap T).

(** The child of [cur] is a link, and so is its parent unless [cur]
    names the world or nothing. *)
Definition linked (cur : SDFJoint T) : Prop :=
  is_Some (sdfBodyNodes !! childName cur)
  ∧ (parentName cur = "world" ∨ parentName cur = ""
     ∨ is_Some (sdfBodyNodes !! parentName cur)).

(** Every registered joint is [linked] and of a type the pair factory
    accepts, as is the type "free" of the root joint, and every link is
    rigid or soft. *)
Definition buildable : Prop :=
  (∀ k j, registry !! k = Some j →
          linked j ∧ is_Some (jointKind (type j)))
  ∧ (∀ n b, sdfBodyNodes !! n = Some b →
            body_type b = "" ∨ body_type b = "soft")
  ∧ is_Some (jointKind "free").

(** [n] is the parent that some registered joint names: a name other
    than "world" and the empty one. *)
Definition named_parent (n : string) : Prop :=
  n ≠ "world" ∧ n ≠ ""
  ∧ ∃ c j, registry !! c = Some j ∧ parentName j = n.
End Buildable.

(** ** Reading shapes *)

Section ReadShape.
(** [double], [Eigen::Isometry3d] and [aiScene] objects. *)
Context {double T Scene : Type}.

(** [radius * 2] and the literal [0.001]. *)
Variables (mul : double → double → double) (two thin : double).

(** [dynamics::MeshShape::loadMesh]: [None] is a null [aiScene*]. *)
Variable loadMesh : string → option Scene.

Definition Vector2d : Type := double * double.
Definition Vector3d : Type := double * double * double.

(** The shape classes [readShape] instantiates, with their constructor
    arguments. *)
Inductive ShapeClass :=
| BoxShape (size : Vector3d)
| EllipsoidShape (size : Vector3d)
| CylinderShape (radius height : double)
| MeshShape (scale : Vector3d) (model : Scene) (path : string).

(** A shape object; [localTransform] is [Some W] once
    [setLocalTransform(W)] has been called on it. *)
Record ShapeObject := {
  shapeClass : ShapeClass;
  localTransform : option T
}.

(** The children of a [<geometry>] element that [readShape] asks for,
    each with the values read from it. *)
Record GeometryElement := {
  g_box : option Vector3d;
  g_sphere : option double;
  g_cylinder : option (double * double);
  g_plane : option Vector2d;
  g_mesh : option (string * Vector3d)
}.

(** A [<visual>] or [<collision>] element. *)
Record ShapeElement := {
  se_geometry : option GeometryElement;
  se_pose : option T
}.

(** What [readShape] writes: to [dterr] when a mesh does not load, to
    [std::cout] when the geometry is of no known kind. *)
Inductive ShapeReport :=
| FailToLoadModel (uri : string)
| InvalidShapeType.

(** [SdfParser::readShape]: the pointer returned ([None] is a null
    [ShapePtr]) and what was written. *)
Definition readShape (_shapelement : ShapeElement) (_skelPath : string)
  : outcome (option ShapeObject * list ShapeReport) :=
  match se_geometry _shapelement with
  | None => AssertFailed
  | Some geometryElement =>
      let made (c : ShapeClass) := Some (Some c, []) in
      let newShape : option (option ShapeClass * list ShapeReport) :=
        match g_box geometryElement with
        | Some size => made (BoxShape size)
        | None =>
        match g_sphere geometryElement with
        | Some radius =>
            made (EllipsoidShape
                    (mul radius two, mul radius two, mul radius two))
        | None =>
        match g_cylinder geometryElement with
        | Some (radius, height) => made (CylinderShape radius height)
        | None =>
        match g_plane geometryElement with
        | Some visSize => made (BoxShape (visSize.1, visSize.2, thin))
        | None =>
        match g_mesh geometryElement with
        | Some (uri, scale) =>
            match loadMesh (_skelPath +:+ uri) with
            | Some model => made (MeshShape scale model _skelPath)
            | None => Some (None, [FailToLoadModel uri])
            end
        | None => None
        end end end end end in
      match newShape with
      | None => Ok (None, [InvalidShapeType])
      | Some (newShape, out) =>
          match se_pose _shapelement with
          | Some W =>
              match newShape with
              | Some c =>
                  Ok (Some {| shapeClass := c; localTransform := Some W |},
                      out)
              | None => NullDereference
              end
          | None =>
              Ok ((λ c, {| shapeClass := c; localTransform := None |})
                    <$> newShape, out)
          end
      end
  end.

(** The geometry is of none of the five kinds [readShape] knows. *)
Definition no_geometry (g : GeometryElement) : Prop :=
  g_box g = None ∧ g_sphere g = None ∧ g_cylinder g = None
  ∧ g_plane g = None ∧ g_mesh g = None.

(** The geometry is read as the mesh [uri], which does not load from
    [_skelPath]. *)
Definition mesh_fails (g : GeometryElement) (_skelPath uri : string) : Prop :=
  g_box g = None ∧ g_sphere g = None ∧ g_cylinder g = None
  ∧ g_plane g = None
  ∧ (∃ scale, g_mesh g = Some (uri, scale))
  ∧ loadMesh (_skelPath +:+ uri) = None.

(** The two shape loops of [readBodyNode]: every element is read, the
    non-null shapes are kept in order. *)
Fixpoint readShapes (elems : list ShapeElement) (_skelPath : string)
  : outcome (list ShapeObject * list ShapeReport) :=
  match elems with
  | [] => Ok ([], [])
  | e :: elems' =>
      do r ← readShape e _skelPath;
      do rs ← readShapes elems' _skelPath;
      Ok (match r.1 with Some sh => sh :: rs.1 | None => rs.1 end,
          r.2 ++ rs.2)
  end.
End ReadShape.

(** ** Reading links, rigid and soft *)

Section ReadSoftBodyNode.
Context {double T Soft : Type} `{!Isometry T}.

(** [dynamics::SoftBodyNodeHelper]'s three makers, a default-constructed
    [SoftBodyNode::UniqueProperties], and the assignments to its members
    [mKv], [mKe] and [mDampCoeff]. *)
Variable makeBoxProperties :
  double * double * double → T → nat * nat * nat → double → Soft.
Variable makeEllipsoidProperties :
  double * double * double → double → double → double → Soft.
Variable makeCylinderProperties :
  double → double → double → double → double → double → Soft.
Variable defaultSoft : Soft.
Variables set_mKv set_mKe set_mDampCoeff : Soft → double → Soft.

(** The children of a [<soft_shape>] element. *)
Record SoftShapeElement := {
  ss_total_mass : double;
  ss_pose : option T;
  ss_box : option ((double * double * double) * (nat * nat * nat));
  ss_ellipsoid : option ((double * double * double) * double * double);
  ss_cylinder : option (double * double * double * double * double);
  ss_kv : option double;
  ss_ke : option double;
  ss_damp : option double
}.

(** A [<link>] element: its name, pose and soft shape. *)
Record SoftLinkElement := {
  sl_name : string;
  sl_pose : option T;
  sl_soft_shape : option SoftShapeElement
}.

(** What a body reader hands back besides the record of the link: the
    soft properties, if it made any, and whether it wrote "Unknown soft
    shape" to [dterr]. *)
Record ReadLink := {
  sdfBodyNode : SDFBodyNode T;
  softProperties : option Soft;
  unknownSoftShape : bool
}.

(** [SdfParser::readBodyNode], its name and its frame: the record it
    returns has a default-constructed, empty, type. *)
Definition readBodyNode_sdf (e : SoftLinkElement) (_skeletonFrame : T)
  : SDFBodyNode T :=
  {| body_mName := sl_name e;
     initTransform := match sl_pose e with
                      | Some W => compose _skeletonFrame W
                      | None => _skeletonFrame
                      end;
     body_type := "" |}.

(** The geometry dispatch of [readSoftBodyNode]. *)
Definition readSoftGeometry (e : SoftShapeElement) : option Soft :=
  let totalMass := ss_total_mass e in
  let T0 := default Identity (ss_pose e) in
  match ss_box e with
  | Some (size, frags) => Some (makeBoxProperties size T0 frags totalMass)
  | None =>
  match ss_ellipsoid e with
  | Some (size, nSlices, nStacks) =>
      Some (makeEllipsoidProperties size nSlices nStacks totalMass)
  | None =>
  match ss_cylinder e with
  | Some (radius, height, nSlices, nStacks, nRings) =>
      Some (makeCylinderProperties radius height nSlices nStacks nRings
              totalMass)
  | None => None
  end end end.

(** [SdfParser::readSoftBodyNode]. *)
Definition readSoftBodyNode (e : SoftLinkElement) (_skeletonFrame : T)
  : ReadLink :=
  let standardSDF := readBodyNode_sdf e _skeletonFrame in
  match sl_soft_shape e with
  | None =>
      {| sdfBodyNode := standardSDF; softProperties := None;
         unknownSoftShape := false |}
  | Some softShapeEle =>
      let made := readSoftGeometry softShapeEle in
      let p0 := default defaultSoft made in
      let p1 := match ss_kv softShapeEle with
                | Some kv => set_mKv p0 kv | None => p0 end in
      let p2 := match ss_ke softShapeEle with
                | Some ke => set_mKe p1 ke | None => p1 end in
      let p3 := match ss_damp softShapeEle with
                | Some damp => set_mDampCoeff p2 damp | None => p2 end in
      {| sdfBodyNode := {| body_mName := body_mName standardSDF;
                           initTransform := initTransform standardSDF;
                           body_type := "soft" |};
         softProperties := Some p3;
         unknownSoftShape := bool_decide (made = None) |}
  end.
End ReadSoftBodyNode.

(** ** Resolving URI references ([dart/common/Uri.cpp]) *)

Definition slash : ascii := "/"%char.
Definition dot : ascii := "."%char.

(** [_target.substr(0, _prefix.size()) == _prefix]; [substr(0, n)] keeps at
    most [n] characters. *)
Definition startsWith (_target _prefix : list ascii) : bool :=
  bool_decide (take (length _prefix) _target = _prefix).

(** [s.substr(pos)] throws [std::out_of_range] when [pos > s.size()]:
    [None]. *)
Definition substr (s : list ascii) (pos : nat) : option (list ascii) :=
  if decide (pos ≤ length s) then Some (drop pos s) else None.

(** [None] is [std::string::npos]. *)
Fixpoint find_last_of (s : list ascii) (c : ascii) : option nat :=
  match s with
  | [] => None
  | x :: s' =>
      match find_last_of s' c with
      | Some i => Some (S i)
      | None => if decide (x = c) then Some 0 else None
      end
  end.

Definition find_first_of (s : list ascii) (c : ascii) (pos : nat)
  : option nat :=
  (λ r, pos + r.1) <$> list_find (λ x, x = c) (drop pos s).

(** The two identical blocks of case C: cut the output at its last '/',
    or empty it when it has none. *)
Definition remove_last_segment (output : list ascii) : list ascii :=
  match find_last_of output slash with
  | Some index => take index output
  | None => []
  end.

(** One pass of the [while] body on [(input, output)]. *)
Definition removeDotSegments_body (input output : list ascii)
  : option (list ascii * list ascii) :=
  if startsWith input [dot; dot; slash] then
    input' ← substr input 3; Some (input', output)
  else if startsWith input [dot; slash] then
    input' ← substr input 2; Some (input', output)
  else if decide (input = [slash; dot]) then
    Some ([slash], output)
  else if startsWith input [slash; dot; slash] then
    rest ← substr input 3; Some (slash :: rest, output)
  else if decide (input = [slash; dot; dot]) then
    Some ([slash], remove_last_segment output)
  else if startsWith input [slash; dot; dot; slash] then
    rest ← substr input 4; Some (slash :: rest, remove_last_segment output)
  else if decide (input = [dot] ∨ input = [dot; dot]) then
    Some ([], output)
  else
    match find_first_of input slash 1 with
    | Some index =>
        input' ← substr input index; Some (input', output ++ take index input)
    | None => Some ([], output ++ input)
    end.

(** [while(!input.empty())]; [None] is an exception of the body or the end
    of the fuel. *)
Fixpoint removeDotSegments_loop (fuel : nat) (input output : list ascii)
  : option (list ascii) :=
  match input with
  | [] => Some output
  | _ :: _ =>
      match fuel with
      | 0 => None
      | S fuel' =>
          '(input', output') ← removeDotSegments_body input output;
          removeDotSegments_loop fuel' input' output'
      end
  end.

Definition removeDotSegments (_path : list ascii) : option (list ascii) :=
  removeDotSegments_loop (length _path) _path [].

(** The segments of a path: the pieces between its '/' characters. *)
Fixpoint segments (s : list ascii) : list (list ascii) :=
  match s with
  | [] => [[]]
  | c :: s' =>
      if decide (c = slash) then [] :: segments s'
      else match segments s' with
           | seg :: segs => (c :: seg) :: segs
           | [] => [[c]]
           end
  end.

Definition dot_segment (seg : list ascii) : Prop :=
  seg = [dot] ∨ seg = [dot; dot].

Definition dot_free (s : list ascii) : Prop :=
  Forall (λ seg, ¬ dot_segment seg) (segments s).

(** What one pass does, case by case. *)
Inductive body_spec (input output : list ascii)
  : list ascii → list ascii → Prop :=
  | body_A1 r : input = dot :: dot :: slash :: r → body_spec input output r output
  | body_A2 r : input = dot :: slash :: r → body_spec input output r output
  | body_B1 : input = [slash; dot] → body_spec input output [slash] output
  | body_B2 r : input = slash :: dot :: slash :: r →
      body_spec input output (slash :: r) output
  | body_C1 : input = [slash; dot; dot] →
      body_spec input output [slash] (remove_last_segment output)
  | body_C2 r : input = slash :: dot :: dot :: slash :: r →
      body_spec input output (slash :: r) (remove_last_segment output)
  | body_D : dot_segment input → body_spec input output [] output
  | body_E c w rest :
      input = c :: w ++ rest → slash ∉ w →
      rest = [] ∨ head rest = Some slash →
      (if decide (c = slash) then ¬ dot_segment w else ¬ dot_segment (c :: w)) →
      body_spec input output rest (output ++ c :: w).

(** [Uri]: five [UriComponent]s, each a value that may be absent. *)
Record Uri := {
  mScheme : option (list ascii);
  mAuthority : option (list ascii);
  mPath : option (list ascii);
  mQuery : option (list ascii);
  mFragment : option (list ascii);
}.

(** [None]: a failed [assert] (of the function or of [UriComponent::get]). *)
Definition mergePaths (_base _relative : Uri) : option (list ascii) :=
  basePath ← mPath _base;
  relativePath ← mPath _relative;
  if bool_decide (is_Some (mAuthority _base)) && bool_decide (basePath = [])
  then Some (slash :: relativePath)
  else match find_last_of basePath slash with
       | Some index => Some (take (index + 1) basePath ++ relativePath)
       | None => Some relativePath
       end.

(** [fromRelativeUri(const Uri&, const Uri&, bool)]: the returned [bool] and
    the five components it assigns; [None]: a failed [assert] or an
    exception. *)
Definition fromRelativeUri (_base _relative : Uri) (_strict : bool)
  : option (bool * Uri) :=
  _ ← mPath _base;
  relativePath ← mPath _relative;
  if mScheme _relative is Some _ then
    p ← removeDotSegments relativePath;
    Some (true, {| mScheme := mScheme _relative;
                   mAuthority := mAuthority _relative;
                   mPath := Some p;
                   mQuery := mQuery _relative;
                   mFragment := mFragment _relative |})
  else if mAuthority _relative is Some _ then
    p ← removeDotSegments relativePath;
    Some (true, {| mScheme := mScheme _base;
                   mAuthority := mAuthority _relative;
                   mPath := Some p;
                   mQuery := mQuery _relative;
                   mFragment := mFragment _relative |})
  else if relativePath is [] then
    Some (true, {| mScheme := mScheme _base;
                   mAuthority := mAuthority _base;
                   mPath := mPath _base;
                   mQuery := if mQuery _relative is Some _
                             then mQuery _relative else mQuery _base;
                   mFragment := mFragment _relative |})
  else
    p ← (if bool_decide (head relativePath = Some slash)
         then removeDotSegments relativePath
         else merged ← mergePaths _base _relative; removeDotSegments merged);
    Some (true, {| mScheme := mScheme _base;
                   mAuthority := mAuthority _base;
                   mPath := Some p;
                   mQuery := mQuery _relative;
                   mFragment := mFragment _relative |}).

(** ** Worked examples *)

(** Translations along one axis, as a small instance of [Isometry]. *)
#[global] Instance slide : Isometry Z :=
  {| Identity := 0%Z; compose := Z.add; inverse := Z.opp |}.

(** The type tags that occur in SdfParser.cpp: the five that [readJoint]
    tests for and the one given to the synthesized root joint. *)
Definition sdfJointKind (type : string) : option JointKind :=
  if decide (type = "prismatic") then Some PrismaticJoint
  else if decide (type = "revolute") then Some RevoluteJoint
  else if decide (type = "screw") then Some ScrewJoint
  else if decide (type = "revolute2") then Some UniversalJoint
  else if decide (type = "ball") then Some BallJoint
  else if decide (type = "free") then Some FreeJoint
  else None.

(** A rigid link called [name], placed at [at_]. *)
Definition rigidLink (name : string) (at_ : Z) : SDFBodyNode Z :=
  {| body_mName := name; initTransform := at_; body_type := "" |}.

(** A revolute joint called [name] from [parent] to [child]. *)
Definition revolute (name parent child : string) : SDFJoint Z :=
  {| properties := {| mName := name; mT_ParentBodyToJoint := 0%Z;
                      mT_ChildBodyToJoint := 0%Z; mClass := RevoluteJoint |};
     parentName := parent; childName := child; type := "revolute" |}.

(** Links A, B, C with J2 from B to C given before J1 from A to B. *)
Definition chainLinks : list (SDFBodyNode Z) :=
  [rigidLink "A" 1; rigidLink "B" 2; rigidLink "C" 3].
Definition chainJoints : list (SDFJoint Z) :=
  [revolute "J2" "B" "C"; revolute "J1" "A" "B"].

(** The state in which the loop leaves the chain. *)
Definition chainFinal : @LoopState Z :=
  Eval vm_compute in
    match assemble sdfJointKind 20 chainLinks chainJoints with
    | Some (_, s) => s
    | None => initState ∅ []
    end.

(** Links A and B; JA makes A a root, JB asks for a parent that is
    neither a link nor the child of a joint. *)
Definition strayLinks : list (SDFBodyNode Z) :=
  [rigidLink "A" 1; rigidLink "B" 2].
Definition strayJoints : list (SDFJoint Z) :=
  [revolute "JA" "" "A"; revolute "JB" "missing" "B"].

(** A [<joint>] element of a given type from [parent] to [child]. *)
Definition jointElement (type name parent child : string) : @JointElement Z :=
  {| je_type := type; je_name := name; je_parent := Some parent;
     je_child := Some child; je_pose := None;
     je_axis := true; je_axis2 := true |}.

(** A document whose [<sdf>] element declares version 1.6. *)
Definition sdf16 (_ : string) : option (@XMLDocument Z) :=
  Some {| sdfElement := Some {| version := "1.6"; sdf_world := None;
                                sdf_model := None |} |}.

(** A link with an [<inertial>] that declares the mass 5 only, and two
    [<visual>]s of which the first gave no shape. *)
Definition massOnly : @LinkElement Z Z string :=
  {| le_visual := [None; Some "box"]; le_collision := [];
     le_inertial := Some {| ie_mass := Some 5%Z; ie_pose := None;
                            ie_inertia := None |} |}.

(** Links R, X and A in a line, the joint of the last link coming first
    in the registry: the state in which the loop is entered, and the one
    in which it leaves them. *)
Definition descentLinks : list (SDFBodyNode Z) :=
  [rigidLink "R" 1; rigidLink "X" 2; rigidLink "A" 3].
Definition descentJoints : list (SDFJoint Z) :=
  [revolute "J1" "X" "A"; revolute "J2" "R" "X"].
Definition descentInit : @LoopState Z :=
  initState (collectJoints descentJoints).1
    ((readAllBodyNodes descentLinks).2 ++ (collectJoints descentJoints).2).
Definition descentFinal : @LoopState Z :=
  Eval vm_compute in
    match assemble sdfJointKind 20 descentLinks descentJoints with
    | Some (_, s) => s
    | None => initState ∅ []
    end.

(** Links A and B, each the child of a joint whose parent is the
    other. *)
Definition cycleLinks : list (SDFBodyNode Z) :=
  [rigidLink "A" 1; rigidLink "B" 2].
Definition cycleJoints : list (SDFJoint Z) :=
  [revolute "J1" "B" "A"; revolute "J2" "A" "B"].

(** A link called "world", made a root by J1, and a link x whose joint
    J2 names "world" as its parent. *)
Definition worldLinks : list (SDFBodyNode Z) :=
  [rigidLink "world" 1; rigidLink "x" 2].
Definition worldJoints : list (SDFJoint Z) :=
  [revolute "J1" "" "world"; revolute "J2" "world" "x"].

(** The state in which the loop leaves them. *)
Definition worldFinal : @LoopState Z :=
  Eval vm_compute in
    match assemble sdfJointKind 20 worldLinks worldJoints with
    | Some (_, s) => s
    | None => initState ∅ []
    end.

(** The state in which the loop is entered for the chain, and the one
    after its first iteration. *)
Definition chainInit : @LoopState Z :=
  initState (collectJoints chainJoints).1
    ((readAllBodyNodes chainLinks).2 ++ (collectJoints chainJoints).2).
Definition chainSecond : @LoopState Z :=
  Eval vm_compute in
    match step sdfJointKind (readAllBodyNodes chainLinks).1 chainInit with
    | Next s => s
    | _ => chainInit
    end.

(** A model with a rigid link A and a link B of the type "hard", joined
    by J1 from A to B. *)
Definition hardModel : @ModelElement Z :=
  {| links := [rigidLink "A" 1;
               {| body_mName := "B"; initTransform := 2%Z;
                  body_type := "hard" |}];
     joints := [jointElement "revolute" "J1" "A" "B"] |}.

(** The state in which the loop leaves it. *)
Definition hardFinal : @LoopState Z :=
  Eval vm_compute in
    match readSkeleton sdfJointKind 20 hardModel with
    | Ok (Some (_, s)) => s
    | _ => initState ∅ []
    end.

(** A world of two models: the one above and one of a single link. *)
Definition twoModels : @WorldElement Z :=
  {| world_name := "default";
     world_models := [hardModel;
                      {| links := [rigidLink "A" 1]; joints := [] |}] |}.

(** A [<visual>] with a pose whose geometry is a mesh, and a loader
    that finds no mesh. *)
Definition meshVisual : @ShapeElement Z Z :=
  {| se_geometry := Some {| g_box := None; g_sphere := None;
                            g_cylinder := None; g_plane := None;
                            g_mesh := Some ("wheel.dae", (1, 1, 1)%Z) |};
     se_pose := Some 3%Z |}.
Definition boxVisual : @ShapeElement Z Z :=
  {| se_geometry := Some {| g_box := Some (1, 2, 3)%Z; g_sphere := None;
                            g_cylinder := None; g_plane := None;
                            g_mesh := None |};
     se_pose := None |}.
Definition noMesh (_ : string) : option unit := None.

(** The characters of a string literal. *)
Definition chars (s : string) : list ascii := String.list_ascii_of_string s.

(** * Properties *)

(** ** [begin] *)

Lemma foldl_key_min_Some (l : list string) (k : string) :
  ∃ k', foldl key_min (Some k) l = Some k' ∧ (k' = k ∨ k' ∈ l).
Proof.
  revert k. induction l as [|x l IH]; intros k; simpl.
  - eauto.
  - destruct (String.ltb x k).
    + destruct (IH x) as (k' & -> & [->|?]); eexists; split; eauto;
        right; set_solver.
    + destruct (IH k) as (k' & -> & [->|?]); eexists; split; eauto;
        right; set_solver.
Qed.

Lemma begin_None {V} (m : gmap string V) : begin m = None ↔ m = ∅.
Proof.
  unfold begin. split.
  - intros Hb. apply map_to_list_empty_iff.
    destruct (map_to_list m) as [|[k v] l]; [done|].
    change (foldl key_min (Some k) l.*1 = None) in Hb.
    destruct (foldl_key_min_Some l.*1 k) as (k' & Hk' & _). congruence.
  - intros ->. by rewrite map_to_list_empty.
Qed.

Lemma begin_Some {V} (m : gmap string V) (k : string) :
  begin m = Some k → is_Some (m !! k).
Proof.
  unfold begin. intros Hb.
  assert (k ∈ (map_to_list m).*1) as Hin.
  { destruct (map_to_list m) as [|[k0 v] l]; [done|].
    change (foldl key_min (Some k0) l.*1 = Some k) in Hb.
    destruct (foldl_key_min_Some l.*1 k0) as (k' & Hk' & Hor).
    rewrite Hk' in Hb. injection Hb as ->. set_solver. }
  apply list_elem_of_fmap in Hin as ([k1 v] & -> & Hin).
  apply elem_of_map_to_list in Hin. eauto.
Qed.

(** Capitals sort before small letters, and a proper prefix before its
    extensions, as with [std::string::operator<]. *)
Example begin_least_key :
  begin (<["b" := 1]> (<["ab" := 2]> (<["a" := 3]> (<["B" := 4]> ∅))))
  = Some "B"
  ∧ begin (<["b" := 1]> (<["ab" := 2]> (<["a" := 3]> ∅))) = Some "a".
Proof. split; vm_compute; reflexivity. Qed.

(** ** Skeleton lookups and the pair factory *)

Section Factory.
Context {T : Type} `{!Isometry T}.
Variable jointKind : string → option JointKind.
Implicit Types (skeleton : Skeleton T) (bn : BodyNode T).

Lemma getBodyNode_None skeleton name :
  getBodyNode skeleton name = None ↔ name ∉ getName <$> skeleton.
Proof.
  unfold getBodyNode. rewrite fmap_None, list_find_None, Forall_forall.
  rewrite list_elem_of_fmap. split.
  - intros Hall (bn & -> & Hin). by apply (Hall bn).
  - intros Hno bn Hin Heq. apply Hno. eauto.
Qed.

Lemma getBodyNode_Some skeleton name i :
  getBodyNode skeleton name = Some i →
  ∃ bn, skeleton !! i = Some bn ∧ getName bn = name.
Proof.
  unfold getBodyNode. intros ([i' bn] & Hf & ->)%fmap_Some.
  apply list_find_Some in Hf as (? & ? & _). eauto.
Qed.

Lemma getBodyNode_is_Some skeleton name :
  name ∈ getName <$> skeleton → is_Some (getBodyNode skeleton name).
Proof.
  intros Hin. destruct (getBodyNode skeleton name) eqn:E; [eauto|].
  by apply getBodyNode_None in E.
Qed.

(** A successful [createPair] appends exactly one BodyNode, built from
    the records and the parent it was given. *)
Lemma createPair_Some skeleton parent newJoint newBody sk d :
  createPair jointKind skeleton parent newJoint newBody = (Some sk, d) →
  ∃ nt k, sk = skeleton ++ [{| node_type := nt; joint_kind := k;
                               parentBodyNode := parent;
                               joint := newJoint; body := newBody |}].
Proof.
  unfold createPair, createJointAndNodePair. intros Hc.
  repeat case_decide; destruct (jointKind (type newJoint));
    simplify_eq; eauto.
Qed.
End Factory.

(** ** The registries *)

Section Registries.
Context {T : Type}.
Implicit Types (joints : list (SDFJoint T)) (links : list (SDFBodyNode T)).

Lemma readAllBodyNodes_snoc links (b : SDFBodyNode T) :
  readAllBodyNodes (links ++ [b]) = addBodyNode (readAllBodyNodes links) b.
Proof. unfold readAllBodyNodes. by rewrite foldl_app. Qed.

Lemma collectJoints_snoc joints (j : SDFJoint T) :
  collectJoints (joints ++ [j]) = addJoint (collectJoints joints) j.
Proof. unfold collectJoints. by rewrite foldl_app. Qed.

(** Every link is stored under its own name. *)
Lemma readAllBodyNodes_key links k (b : SDFBodyNode T) :
  (readAllBodyNodes links).1 !! k = Some b → body_mName b = k.
Proof.
  revert k b. induction links as [|x links IH] using rev_ind; intros k b.
  - simpl. by rewrite lookup_empty.
  - rewrite readAllBodyNodes_snoc. unfold addBodyNode.
    destruct ((readAllBodyNodes links).1 !! body_mName x) eqn:E; simpl.
    + apply IH.
    + rewrite lookup_insert. case_decide; naive_solver.
Qed.

(** The registry holds, for a child name, the first record in input
    order that claims it. *)
Lemma collectJoints_lookup joints c :
  c ≠ "" →
  (collectJoints joints).1 !! c
  = snd <$> list_find (λ j : SDFJoint T, childName j = c) joints.
Proof.
  intros Hc. induction joints as [|x joints IH] using rev_ind.
  - simpl. by rewrite lookup_empty.
  - rewrite collectJoints_snoc. unfold addJoint.
    destruct (list_find (λ j, childName j = c) joints) as [[i j]|] eqn:Ef.
    + rewrite (list_find_app_l _ _ _ _ _ Ef).
      case_decide; simpl; [done|].
      destruct ((collectJoints joints).1 !! childName x) eqn:E; simpl;
        [done|].
      rewrite lookup_insert_ne; [done|]. intros Heq. rewrite Heq in E.
      rewrite IH in E. done.
    + rewrite list_find_app_r by done. simpl.
      case_decide as Hx; simpl.
      * rewrite IH. case_decide; first [congruence | done].
      * destruct ((collectJoints joints).1 !! childName x) eqn:E; simpl.
        -- rewrite IH. case_decide as Hxc; [|done].
           rewrite Hxc, IH in E. done.
        -- rewrite lookup_insert, IH. by repeat case_decide.
Qed.

Lemma collectJoints_empty_key joints :
  (collectJoints joints).1 !! "" = None.
Proof.
  induction joints as [|x joints IH] using rev_ind.
  - simpl. by rewrite lookup_empty.
  - rewrite collectJoints_snoc. unfold addJoint.
    case_decide; simpl; [done|].
    destruct (_ !! childName x); simpl; [done|].
    by rewrite lookup_insert_ne.
Qed.

(** Every joint is stored under the name of its child. *)
Lemma collectJoints_key joints k (j : SDFJoint T) :
  (collectJoints joints).1 !! k = Some j → childName j = k.
Proof.
  destruct (decide (k = "")) as [->|Hk].
  - by rewrite collectJoints_empty_key.
  - rewrite collectJoints_lookup by done.
    intros ([i j'] & Hf & ->)%fmap_Some.
    by apply list_find_Some in Hf as (_ & ? & _).
Qed.

End Registries.

(** ** One iteration of the loop, case by case *)

Section LoopSteps.
Context {T : Type} `{!Isometry T}.
Variable jointKind : string → option JointKind.
Variable sdfBodyNodes : BodyMap T.
Implicit Types (s : @LoopState T) (cur : SDFJoint T).

Local Abbreviation step_spec := (step_spec sdfBodyNodes).

Lemma createPair_None_dterr (skeleton : Skeleton T) parent
    (newJoint : SDFJoint T) (newBody : SDFBodyNode T) d :
  createPair jointKind skeleton parent newJoint newBody = (None, d) →
  ∃ d0, d = [d0].
Proof.
  unfold createPair, createJointAndNodePair. intros Hc.
  repeat case_decide; destruct (jointKind (type newJoint));
    simplify_eq; eauto.
Qed.

Lemma resolved_dec s cur :
  bool_decide (getBodyNode (newSkeleton s) (parentName cur) = None)
  && bool_decide (parentName cur ≠ "world")
  && bool_decide (parentName cur ≠ "") = false ↔ resolved s cur.
Proof.
  unfold resolved. rewrite !andb_false_iff, !bool_decide_eq_false.
  rewrite <-not_eq_None_Some. split.
  - intros [[?|Hw]|He]; [by left| |].
    + right; left. by apply dec_stable.
    + right; right. by apply dec_stable.
  - intros [?|[?|?]]; [by left; left|left; right|right]; by intros [].
Qed.

(** [step] takes one of the five cases whenever the cursor is valid. *)
Lemma step_sound s :
  (∀ k, it s = Some k → is_Some (sdfJoints s !! k)) →
  step_spec s (step jointKind sdfBodyNodes s).
Proof.
  intros Hit. unfold step. destruct (it s) as [k|] eqn:Ek;
    [|by apply step_end].
  destruct (Hit k eq_refl) as [cur Hcur]. rewrite Hcur.
  unfold getNextJointAndNodePair.
  destruct (bool_decide _ && _ && _) eqn:Er.
  - assert (¬ resolved s cur) as Hnr.
    { intros Hr%resolved_dec. congruence. }
    destruct (sdfJoints s !! parentName cur) as [pj|] eqn:Epj; simpl.
    { eapply step_redirect; eauto. }
    destruct (sdfBodyNodes !! parentName cur) as [rootNode|] eqn:Ep; simpl.
    2:{ eapply step_break; eauto. }
    destruct (sdfBodyNodes !! childName cur) as [cn|] eqn:Ec; simpl.
    2:{ eapply step_break; eauto. }
    destruct (createPair _ _ _ _ _) as [[sk|] d] eqn:Ecp.
    + apply createPair_Some in Ecp as (nt & jk & ->).
      eapply step_root; eauto.
    + apply createPair_None_dterr in Ecp as [d0 ->].
      eapply step_break; eauto. simpl. by rewrite app_nil_r.
  - apply resolved_dec in Er.
    destruct (sdfBodyNodes !! childName cur) as [cn|] eqn:Ec; simpl.
    2:{ eapply step_break; eauto. }
    rewrite Ec.
    destruct (createPair _ _ _ _ _) as [[sk|] d] eqn:Ecp.
    + apply createPair_Some in Ecp as (nt & jk & ->).
      eapply step_valid; eauto.
    + apply createPair_None_dterr in Ecp as [d0 ->].
      eapply step_break; eauto. simpl. by rewrite app_nil_r.
Qed.
End LoopSteps.

(** ** The loop invariant *)

Section Invariant.
Context {T : Type} `{!Isometry T}.
Variable jointKind : string → option JointKind.
Variables (sdfBodyNodes : BodyMap T) (registry : JointMap T).
Hypothesis body_keys :
  ∀ k b, sdfBodyNodes !! k = Some b → body_mName b = k.
Hypothesis joint_keys :
  ∀ k j, registry !! k = Some j → childName j = k.
Implicit Types (s : @LoopState T) (bn : BodyNode T).

Local Abbreviation steps_to := (steps_to jointKind sdfBodyNodes).
Local Abbreviation node_ok := (node_ok sdfBodyNodes registry).
Local Abbreviation Inv := (Inv sdfBodyNodes registry).

Lemma Inv_cursor s : Inv s → ∀ k, it s = Some k → is_Some (sdfJoints s !! k).
Proof. intros [Hit _ _ _ _] k Hk. by rewrite Hk in Hit. Qed.

Lemma Inv_step_spec s :
  Inv s → step_spec sdfBodyNodes s (step jointKind sdfBodyNodes s).
Proof. intros HI. apply step_sound, Inv_cursor, HI. Qed.

Lemma node_ok_mono sk pending sk' pending' i bn :
  (∀ k, pending !! k = None → pending' !! k = None) →
  node_ok sk pending i bn → node_ok (sk ++ sk') pending' i bn.
Proof.
  intros Hp (Hb & Hpar & Hor). split_and!; [done| |].
  - intros p Hpp. destruct (Hpar p Hpp) as (? & pb & ? & ?).
    split; [done|]. exists pb. split; [|done]. by apply lookup_app_l_Some.
  - destruct Hor as [(?&?&?)|?]; [left|right]; auto.
Qed.

Lemma name_in_skeleton (sk : Skeleton T) name :
  name ∈ getName <$> sk ↔ ∃ i bn, sk !! i = Some bn ∧ getName bn = name.
Proof.
  rewrite list_elem_of_fmap. split.
  - intros (bn & -> & (i & ?)%list_elem_of_lookup). eauto.
  - intros (i & bn & ? & <-). eauto using list_elem_of_lookup_2.
Qed.

Lemma Inv_init d : Inv (initState registry d).
Proof.
  split; simpl.
  - destruct (begin registry) as [k|] eqn:E.
    + by apply begin_Some.
    + by apply begin_None.
  - done.
  - intros k [j Hj] Hn. congruence.
  - constructor.
  - intros i bn Hi. by rewrite lookup_nil in Hi.
Qed.

Lemma Inv_step s s' : Inv s → steps_to s s' → Inv s'.
Proof.
  intros HI Hs. pose proof (Inv_step_spec s HI) as Hspec.
  unfold steps_to in Hs. rewrite Hs in Hspec.
  destruct HI as [Hit Hpend Hbuilt Hnd Hnodes].
  inversion Hspec as
    [ | | k cur s0 Hk Hcur Hnr Hp Hit' Hsk' Hj'
      | k cur rootNode nt jk s0 Hk Hcur Hnr Hpn Hb Hit' Hj' Hsk'
      | k cur childNode nt jk s0 Hk Hcur Hr Hb Hit' Hj' Hsk' ]; subst s0.
  - (* redirection *)
    split; rewrite ?Hit', ?Hsk', ?Hj'; done.
  - (* a root for the parent link *)
    assert (parentName cur ∉ getName <$> newSkeleton s) as Hfresh.
    { apply getBodyNode_None. destruct (getBodyNode _ _) eqn:E; [|done].
      destruct Hnr. left. eauto. }
    pose proof (body_keys _ _ Hb) as Hname.
    split; rewrite ?Hit', ?Hsk', ?Hj'.
    + by rewrite Hk in Hit.
    + done.
    + intros k' Hk' Hn. rewrite fmap_app. apply elem_of_app. auto.
    + rewrite fmap_app. apply NoDup_app. split_and!; [done| |].
      * intros x Hx. simpl. rewrite list_elem_of_singleton.
        unfold getName. simpl. congruence.
      * apply NoDup_singleton.
    + intros i bn [Hi|[-> <-]]%lookup_snoc_Some.
      * eapply node_ok_mono; [|apply Hnodes, Hi]. done.
      * unfold node_ok, getName. simpl. rewrite Hname.
        split_and!; [done|done|]. right. split_and!; [|done|done].
        destruct (registry !! parentName cur) eqn:E; [|done].
        destruct Hfresh. apply Hbuilt; eauto.
  - (* the pair of the current joint *)
    pose proof (lookup_weaken _ _ _ _ Hcur Hpend) as Hreg.
    pose proof (joint_keys _ _ Hreg) as Hck.
    pose proof (body_keys _ _ Hb) as Hname.
    assert (k ∉ getName <$> newSkeleton s) as Hfresh.
    { intros (i & bn & Hi & Hn)%name_in_skeleton.
      destruct (Hnodes i bn Hi) as (_ & _ & [(_ & Hpn & _)|(Hrn & _)]);
        rewrite Hn in *; congruence. }
    split; rewrite ?Hit', ?Hsk', ?Hj'.
    + destruct (begin (delete k (sdfJoints s))) as [k'|] eqn:E.
      * by apply begin_Some.
      * by apply begin_None.
    + etrans; [apply delete_subseteq|done].
    + intros k' Hk' Hn. rewrite fmap_app. apply elem_of_app.
      destruct (decide (k' = k)) as [->|Hne].
      * right. simpl. apply list_elem_of_singleton. unfold getName. simpl.
        congruence.
      * left. apply Hbuilt; [done|]. by rewrite lookup_delete_ne in Hn.
    + rewrite fmap_app. apply NoDup_app. split_and!; [done| |].
      * intros x Hx. simpl. rewrite list_elem_of_singleton.
        unfold getName. simpl. congruence.
      * apply NoDup_singleton.
    + intros i bn [Hi|[-> <-]]%lookup_snoc_Some.
      * eapply node_ok_mono; [|apply Hnodes, Hi].
        intros k' Hk'. rewrite lookup_delete. by case_decide.
      * unfold node_ok, getName. simpl. rewrite Hname, Hck.
        split_and!; [congruence| |].
        -- intros p (pb & Hpb & Hpn)%getBodyNode_Some. split.
           ++ by eapply lookup_lt_Some.
           ++ exists pb. split; [|done]. by apply lookup_app_l_Some.
        -- left. split_and!; [done|apply lookup_delete_eq|].
           intros Hnone. destruct Hr as [[p Hp]|Hr]; [congruence|done].
Qed.

Lemma Inv_rtc s s' : Inv s → rtc steps_to s s' → Inv s'.
Proof. induction 2; eauto using Inv_step. Qed.

(** *** Running the loop *)

Lemma loop_returns fuel s e s' :
  loop jointKind fuel sdfBodyNodes s = Some (e, s') →
  ∃ s0, rtc steps_to s s0
        ∧ step jointKind sdfBodyNodes s0 = Return e s'.
Proof.
  revert s. induction fuel as [|fuel IH]; intros s; simpl; [done|].
  destruct (step jointKind sdfBodyNodes s) as [s1|e1 s1|] eqn:Es; [| |done].
  - intros (s0 & Hr & Hs0)%IH. exists s0. split; [|done].
    by eapply rtc_l.
  - intros [= -> ->]. exists s. split; [apply rtc_refl|done].
Qed.

Lemma loop_nsteps n m s s' :
  nsteps steps_to n s s' →
  loop jointKind (n + m) sdfBodyNodes s = loop jointKind m sdfBodyNodes s'.
Proof.
  induction 1 as [|n x y z Hxy _ IH]; simpl; [done|].
  unfold steps_to in Hxy. by rewrite Hxy.
Qed.

Lemma loop_mono n m s r :
  loop jointKind n sdfBodyNodes s = Some r → n ≤ m →
  loop jointKind m sdfBodyNodes s = Some r.
Proof.
  revert m s. induction n as [|n IH]; intros m s; simpl; [done|].
  intros Hl Hle. destruct m as [|m]; [lia|]. simpl.
  destruct (step jointKind sdfBodyNodes s); [|done|done].
  apply IH; [done|lia].
Qed.
End Invariant.

(** ** Assembling the records of a model *)

Section Assembly.
Context {T : Type} `{!Isometry T}.
Variable jointKind : string → option JointKind.
Variables (links : list (SDFBodyNode T)) (joints : list (SDFJoint T)).
Implicit Types (s : @LoopState T) (bn : BodyNode T).

Local Abbreviation bodies := (readAllBodyNodes links).1.
Local Abbreviation registry := (collectJoints joints).1.
Local Abbreviation init :=
  (initState registry ((readAllBodyNodes links).2 ++ (collectJoints joints).2)).
Local Abbreviation reachable := (rtc (steps_to jointKind bodies) init).
Local Abbreviation Inv' := (Inv bodies registry).

Lemma reachable_Inv s : reachable s → Inv' s.
Proof.
  apply Inv_rtc.
  - apply readAllBodyNodes_key.
  - apply collectJoints_key.
  - apply Inv_init.
Qed.

(** What the loop returns is the Skeleton and the registry of a state
    it went through; it ends regularly only on an empty registry, and
    by [break] only after a report. *)
Lemma assemble_returns fuel e s :
  assemble jointKind fuel links joints = Some (e, s) →
  ∃ s0, reachable s0
        ∧ newSkeleton s = newSkeleton s0
        ∧ sdfJoints s = sdfJoints s0
        ∧ match e with
          | LoopEnd => s = s0 ∧ sdfJoints s = ∅
          | LoopBreak => ∃ d, dterr s = dterr s0 ++ [d]
          end.
Proof.
  unfold assemble. intros (s0 & Hr & Hs)%loop_returns.
  exists s0. split; [done|].
  pose proof (reachable_Inv s0 Hr) as HI.
  pose proof (Inv_step_spec jointKind _ _ s0 HI) as Hspec.
  rewrite Hs in Hspec. inversion Hspec as [Hit|k cur s1 d| | |]; subst.
  - split_and!; [done..|]. destruct HI as [Hi _ _ _ _].
    by rewrite Hit in Hi.
  - split_and!; eauto.
Qed.

Lemma returned_Inv fuel e s :
  assemble jointKind fuel links joints = Some (e, s) →
  sdfJoints s ⊆ registry
  ∧ (∀ k, is_Some (registry !! k) → sdfJoints s !! k = None →
          k ∈ getName <$> newSkeleton s)
  ∧ NoDup (getName <$> newSkeleton s)
  ∧ (∀ i bn, newSkeleton s !! i = Some bn →
             node_ok bodies registry (newSkeleton s) (sdfJoints s) i bn).
Proof.
  intros (s0 & Hr & -> & -> & _)%assemble_returns.
  by destruct (reachable_Inv s0 Hr).
Qed.

(** *** Roots for links that no joint claims *)

Lemma unique_name (sk : Skeleton T) i i' bn bn' :
  NoDup (getName <$> sk) →
  sk !! i = Some bn → sk !! i' = Some bn' → getName bn = getName bn' →
  i = i'.
Proof.
  intros Hnd Hi Hi' Heq. eapply NoDup_lookup; [done|..].
  - by rewrite list_lookup_fmap, Hi.
  - by rewrite list_lookup_fmap, Hi', Heq.
Qed.

(** C3.  After an assembly that ran to its end, a link [L] that some
    registered joint names as its parent, and that no registered joint
    has as its child, is in the Skeleton exactly once; its joint is the
    synthesized one, called "root", of type "free", placed at the
    link's initial transform, and it has no parent BodyNode.  The
    iteration of the loop that put [L] into the Skeleton left the
    registry of pending joints as it was.  ([L] is a reference to a
    link: neither "world" nor empty.) *)
Theorem orphan_parent_gets_root fuel s L c j node :
  assemble jointKind fuel links joints = Some (LoopEnd, s) →
  registry !! c = Some j → parentName j = L →
  L ≠ "world" → L ≠ "" →
  bodies !! L = Some node →
  registry !! L = None →
  (∃ i bn, newSkeleton s !! i = Some bn ∧ getName bn = L
           ∧ body bn = node
           ∧ mName (properties (joint bn)) = "root"
           ∧ type (joint bn) = "free"
           ∧ mT_ParentBodyToJoint (properties (joint bn))
             = initTransform node
           ∧ parentBodyNode bn = None
           ∧ ∀ i' bn', newSkeleton s !! i' = Some bn' →
                       getName bn' = L → i' = i)
  ∧ (∀ s1 s2, reachable s1 → steps_to jointKind bodies s1 s2 →
              L ∉ getName <$> newSkeleton s1 →
              L ∈ getName <$> newSkeleton s2 →
              sdfJoints s2 = sdfJoints s1 ∧ it s2 = it s1).
Proof.
  intros Ha Hc Hp Hw He Hnode Hno. split.
  - pose proof (returned_Inv _ _ _ Ha) as (_ & Hbuilt & Hnd & Hnodes).
    apply assemble_returns in Ha as (s0 & _ & _ & _ & _ & Hempty).
    (* the joint that names [L] has been built, below [L] *)
    destruct (proj1 (name_in_skeleton (newSkeleton s) c))
      as (ic & bc & Hic & Hbc).
    { apply Hbuilt; [eauto|]. by rewrite Hempty, lookup_empty. }
    destruct (Hnodes ic bc Hic) as (_ & Hpar & Hor).
    rewrite Hbc in Hor.
    destruct Hor as [(Hjc & _ & Hroot)|(? & _)]; [|congruence].
    assert (joint bc = j) as Hj by congruence.
    destruct (parentBodyNode bc) as [p|] eqn:Epar.
    2:{ destruct (Hroot eq_refl); congruence. }
    destruct (Hpar p eq_refl) as (_ & pb & Hpb & Hpn).
    rewrite Hj, Hp in Hpn.
    destruct (Hnodes p pb Hpb) as (Hb & _ & Hor). rewrite Hpn in Hb, Hor.
    destruct Hor as [(? & _)|(_ & Hrj & Hnone)]; [congruence|].
    assert (body pb = node) as Hbody by congruence.
    exists p, pb. rewrite Hrj, Hbody. split_and!; try done.
    intros i' bn' Hi' Hn'. symmetry.
    eapply unique_name; eauto. congruence.
  - intros s1 s2 Hr Hs Hout Hin.
    pose proof (reachable_Inv s1 Hr) as HI.
    pose proof (Inv_step_spec jointKind _ _ s1 HI) as Hspec.
    unfold steps_to in Hs. rewrite Hs in Hspec.
    inversion Hspec as
      [ | | k cur s0 Hk Hcur Hnr Hpj Hit' Hsk' Hj'
        | k cur rootNode nt jk s0 Hk Hcur Hnr Hpn Hb Hit' Hj' Hsk'
        | k cur childNode nt jk s0 Hk Hcur Hr' Hb Hit' Hj' Hsk' ]; subst s0.
    + rewrite Hsk' in Hin. done.
    + split; congruence.
    + exfalso. rewrite Hsk', fmap_app, elem_of_app in Hin.
      destruct Hin as [?|Hin]; [done|].
      apply list_elem_of_singleton in Hin. unfold getName in Hin.
      simpl in Hin.
      pose proof (readAllBodyNodes_key _ _ _ Hb) as Hname.
      pose proof (lookup_weaken _ _ _ _ Hcur (inv_pending _ _ _ HI)) as Hreg.
      pose proof (collectJoints_key _ _ _ Hreg) as Hck.
      assert (L = k) as -> by congruence. congruence.
Qed.
(** *** A parent that is nowhere *)

(** A joint whose parent is neither a link nor the child of a joint
    stays in the registry for as long as the loop runs. *)
Lemma missing_parent_stays c (j : SDFJoint T) s :
  registry !! c = Some j →
  parentName j ≠ "world" → parentName j ≠ "" →
  bodies !! parentName j = None →
  reachable s → sdfJoints s !! c = Some j.
Proof.
  intros Hc Hw He Hb Hr.
  revert s Hr.
  apply (rtc_ind_r (λ s, sdfJoints s !! c = Some j) init); [exact Hc|].
  intros s1 s2 Hr1 Hs IH.
  pose proof (reachable_Inv s1 Hr1) as HI.
  pose proof (Inv_step_spec jointKind _ _ s1 HI) as Hspec.
  unfold steps_to in Hs. rewrite Hs in Hspec.
  inversion Hspec as
    [ | | k cur s0 Hk Hcur Hnr Hpj Hit' Hsk' Hj'
      | k cur rootNode nt jk s0 Hk Hcur Hnr Hpn Hb' Hit' Hj' Hsk'
      | k cur childNode nt jk s0 Hk Hcur Hr' Hb' Hit' Hj' Hsk' ]; subst s0;
    rewrite Hj'; [done|done|].
  destruct (decide (k = c)) as [->|Hne]; [|by rewrite lookup_delete_ne].
  exfalso. assert (cur = j) as -> by congruence.
  destruct Hr' as [[p Hp]|[?|?]]; [|done|done].
  apply getBodyNode_Some in Hp as (pb & Hpb & Hpn).
  destruct (inv_nodes _ _ _ HI _ _ Hpb) as (Hin & _). congruence.
Qed.

Lemma pending_not_built s k :
  Inv' s → is_Some (sdfJoints s !! k) → k ∉ getName <$> newSkeleton s.
Proof.
  intros HI [cur Hcur] (i & bn & Hi & Hn)%name_in_skeleton.
  pose proof (lookup_weaken _ _ _ _ Hcur (inv_pending _ _ _ HI)) as Hreg.
  destruct (inv_nodes _ _ _ HI _ _ Hi) as (_ & _ & [(_ & Hpn & _)|(Hrn & _)]);
    rewrite Hn in *; congruence.
Qed.

(** *** Parent before child *)

(** C4.  In every Skeleton the loop holds while it runs, and in every
    Skeleton it returns: a BodyNode whose joint has a parent BodyNode
    comes strictly after that parent in creation order, and the parent
    bears the name the joint asks for; a BodyNode whose joint names a
    parent link (neither "world" nor empty) does have a parent
    BodyNode, and no other BodyNode bears that name, so none with it
    comes later.  This is the work of the redirection: while the parent
    the joint under the cursor asks for is not in the Skeleton and has a
    pending joint of its own, the child is not in the Skeleton either,
    and the iteration builds nothing and moves the cursor to the joint
    of the parent. *)
Theorem parent_before_child s :
  reachable s ∨ (∃ fuel e, assemble jointKind fuel links joints = Some (e, s)) →
  (∀ i bn, newSkeleton s !! i = Some bn →
     (∀ p, parentBodyNode bn = Some p →
           p < i ∧ ∃ pb, newSkeleton s !! p = Some pb
                         ∧ getName pb = parentName (joint bn))
     ∧ (parentName (joint bn) ≠ "world" → parentName (joint bn) ≠ "" →
        ∃ p, parentBodyNode bn = Some p ∧ p < i
             ∧ ∀ q qb, newSkeleton s !! q = Some qb →
                       getName qb = parentName (joint bn) → q = p))
  ∧ (∀ k cur, it s = Some k → sdfJoints s !! k = Some cur →
       ¬ resolved s cur → is_Some (sdfJoints s !! parentName cur) →
       (childName cur ∉ getName <$> newSkeleton s)
       ∧ ∃ s', step jointKind bodies s = Next s'
               ∧ it s' = Some (parentName cur)
               ∧ newSkeleton s' = newSkeleton s
               ∧ sdfJoints s' = sdfJoints s).
Proof.
  intros Hs.
  assert (sdfJoints s ⊆ registry
          ∧ NoDup (getName <$> newSkeleton s)
          ∧ (∀ i bn, newSkeleton s !! i = Some bn →
                     node_ok bodies registry (newSkeleton s) (sdfJoints s) i bn)
          ∧ (∀ k, is_Some (sdfJoints s !! k) →
                  k ∉ getName <$> newSkeleton s))
    as (Hsub & Hnd & Hnodes & Hpend).
  { destruct Hs as [Hr|(fuel & e & Ha)].
    - pose proof (reachable_Inv s Hr) as HI.
      split_and!; [apply HI..|]. intros k. by apply pending_not_built.
    - destruct (returned_Inv _ _ _ Ha) as (? & _ & ? & ?).
      split_and!; [done..|].
      apply assemble_returns in Ha as (s0 & Hr & -> & -> & _).
      intros k. apply pending_not_built. by apply reachable_Inv. }
  split.
  - intros i bn Hi. destruct (Hnodes i bn Hi) as (_ & Hpar & Hcase).
    split; [exact Hpar|]. intros Hw He.
    destruct Hcase as [(_ & _ & Hnone)|(_ & Hj & _)].
    + destruct (parentBodyNode bn) as [p|] eqn:Ep;
        [|by destruct (Hnone eq_refl)].
      destruct (Hpar p eq_refl) as (Hlt & pb & Hpb & Hname).
      exists p. split_and!; [done..|]. intros q qb Hq Hqn.
      eapply unique_name; [done..|]. congruence.
    + by rewrite Hj in He.
  - intros k cur Hk Hcur Hnr [pj Hpj]. split.
    + pose proof (lookup_weaken _ _ _ _ Hcur Hsub) as Hreg.
      apply collectJoints_key in Hreg as ->. apply Hpend. eauto.
    + eexists. unfold step. rewrite Hk, Hcur.
      unfold getNextJointAndNodePair.
      destruct (bool_decide _ && _ && _) eqn:Er;
        [|by apply resolved_dec in Er].
      rewrite Hpj. simpl. done.
Qed.

(** *** Termination *)

Lemma size_pending_bound (m : JointMap T) (l : list string) :
  NoDup l → (∀ k, k ∈ l → is_Some (m !! k)) → length l ≤ size m.
Proof.
  intros Hnd Hin. rewrite <-length_map_to_list.
  rewrite <-(length_fmap fst (map_to_list m)).
  apply submseteq_length, NoDup_submseteq; [done|].
  intros k [v Hv]%Hin. apply list_elem_of_fmap. exists (k, v).
  split; [done|]. by apply elem_of_map_to_list.
Qed.

Lemma acyclic_subseteq (m m' : JointMap T) :
  m' ⊆ m → acyclic m → acyclic m'.
Proof.
  intros Hsub Hm k Hk. apply (Hm k).
  eapply (tc_congruence id); [|exact Hk].
  intros x y (j & Hj & Hp & [v Hv]). exists j.
  split_and!; [|done|]; eauto using lookup_weaken.
Qed.

Lemma step_Return_loop s e s' n :
  step jointKind bodies s = Return e s' →
  loop jointKind (S n) bodies s = Some (e, s').
Proof. intros Hs. simpl. by rewrite Hs. Qed.

(** From a resolved cursor the next iteration returns or erases the
    joint under the cursor. *)
Lemma resolved_step s k cur :
  Inv' s → it s = Some k → sdfJoints s !! k = Some cur → resolved s cur →
  (∃ r, loop jointKind 1 bodies s = Some r)
  ∨ (∃ s', steps_to jointKind bodies s s'
           ∧ sdfJoints s' = delete k (sdfJoints s)).
Proof.
  intros HI Hk Hcur Hres.
  pose proof (Inv_step_spec jointKind _ _ s HI) as Hspec.
  destruct (step jointKind bodies s) as [s1|e s1|] eqn:Es.
  - right. exists s1. split; [done|].
    inversion Hspec; subst; simplify_eq; done.
  - left. eauto using step_Return_loop.
  - inversion Hspec.
Qed.

(** From any cursor, within [d + 1] iterations the loop returns or
    erases a joint; [vis] are the joints the cursor has been redirected
    from since the last erasure. *)
Lemma round d : ∀ s k vis,
  Inv' s → acyclic (sdfJoints s) → it s = Some k →
  NoDup vis → k ∉ vis →
  (∀ v, v ∈ vis → is_Some (sdfJoints s !! v)
                  ∧ tc (parent_edge (sdfJoints s)) v k) →
  size (sdfJoints s) ≤ length vis + d →
  ∃ n, 0 < n ≤ d + 1
       ∧ ((∃ r, loop jointKind n bodies s = Some r)
          ∨ (∃ s', nsteps (steps_to jointKind bodies) n s s'
                   ∧ size (sdfJoints s') < size (sdfJoints s)
                   ∧ sdfJoints s' ⊆ sdfJoints s)).
Proof.
  induction d as [|d IH]; intros s k vis HI Hac Hk Hnd Hkv Hvis Hsize.
  all: pose proof (Inv_cursor _ _ s HI k Hk) as Hkin.
  all: assert (S (length vis) ≤ size (sdfJoints s)) as Hlen
    by (apply (size_pending_bound _ (k :: vis));
        [by constructor|intros x [->|?]%elem_of_cons; [done|by apply Hvis]]).
  { lia. }
  assert (∀ s', steps_to jointKind bodies s s' →
                sdfJoints s' = delete k (sdfJoints s) →
                ∃ n, 0 < n ≤ 1
                     ∧ ((∃ r, loop jointKind n bodies s = Some r)
                        ∨ (∃ s', nsteps (steps_to jointKind bodies) n s s'
                                 ∧ size (sdfJoints s') < size (sdfJoints s)
                                 ∧ sdfJoints s' ⊆ sdfJoints s))) as Herase.
  { intros s' Hs' Hd. exists 1. split; [lia|]. right. exists s'.
    split_and!; [by apply nsteps_once| |].
    - rewrite Hd, map_size_delete_Some by done. lia.
    - rewrite Hd. apply delete_subseteq. }
  pose proof (Inv_step_spec jointKind _ _ s HI) as Hspec.
  destruct (step jointKind bodies s) as [s1|e s1|] eqn:Es;
    [| |inversion Hspec].
  2:{ exists 1. split; [lia|]. left. eauto using step_Return_loop. }
  inversion Hspec as
    [ | | k0 cur s0 Hk0 Hcur Hnr Hpj Hit' Hsk' Hj'
      | k0 cur rootNode nt jk s0 Hk0 Hcur Hnr Hpn Hb Hit' Hj' Hsk'
      | k0 cur childNode nt jk s0 Hk0 Hcur Hr Hb Hit' Hj' Hsk' ]; subst s0;
    assert (k0 = k) as -> by congruence.
  - (* redirected to the joint of the parent *)
    assert (parent_edge (sdfJoints s) k (parentName cur)) as Hedge
      by (exists cur; done).
    destruct (IH s1 (parentName cur) (k :: vis)) as (n & Hn & Hres).
    + by eapply Inv_step; [apply readAllBodyNodes_key
                          |apply collectJoints_key|..].
    + by rewrite Hj'.
    + done.
    + by constructor.
    + intros [Heq|Hin]%elem_of_cons.
      * apply (Hac k), tc_once. by rewrite Heq in Hedge.
      * apply (Hac (parentName cur)).
        eapply tc_r; [apply Hvis, Hin|exact Hedge].
    + rewrite Hj'. intros v [->|Hin]%elem_of_cons.
      * split; [done|by apply tc_once].
      * split; [by apply Hvis|]. eapply tc_r; [by apply Hvis|done].
    + rewrite Hj'. simpl. lia.
    + exists (S n). split; [lia|]. rewrite Hj' in Hres.
      destruct Hres as [[r Hr]|(s' & Hns & Hsz)].
      * left. exists r. simpl. by rewrite Es.
      * right. exists s'. split; [|done]. by eapply nsteps_l.
  - (* a root for the parent link, then the pair itself *)
    assert (Inv' s1) as HI1
      by (by eapply Inv_step; [apply readAllBodyNodes_key
                              |apply collectJoints_key|..]).
    destruct (resolved_step s1 k cur) as [[r Hr]|(s2 & Hs2 & Hd)].
    + done.
    + done.
    + by rewrite Hj'.
    + left. apply getBodyNode_is_Some. rewrite Hsk', fmap_app.
      apply elem_of_app. right. apply list_elem_of_singleton.
      unfold getName. simpl. symmetry.
      by apply (readAllBodyNodes_key links).
    + exists 2. split; [lia|]. left. exists r.
      change (loop jointKind 2 bodies s)
        with (match step jointKind bodies s with
              | Next s' => loop jointKind 1 bodies s'
              | Return e s' => Some (e, s')
              | Undefined => None
              end).
      by rewrite Es.
    + exists 2. split; [lia|]. right. exists s2. split_and!.
      * eapply nsteps_l; [exact Es|]. by apply nsteps_once.
      * rewrite Hd, Hj', map_size_delete_Some by done. lia.
      * rewrite Hd, Hj'. apply delete_subseteq.
  - (* the pair of the joint under the cursor *)
    destruct (Herase s1 Es Hj') as (n & Hn & Hres).
    exists n. split; [lia|done].
Qed.
Lemma square_bound (n N : nat) :
  n ≤ S N + 1 → n + (N * (N + 1) + 1) ≤ S N * (S N + 1) + 1.
Proof. nia. Qed.

(** With no cycle among the pending joints, the loop returns within
    [N * (N + 1) + 1] evaluations of its condition, [N] bounding the
    number of pending joints. *)
Lemma loop_terminates N : ∀ s,
  Inv' s → acyclic (sdfJoints s) → size (sdfJoints s) ≤ N →
  is_Some (loop jointKind (N * (N + 1) + 1) bodies s).
Proof.
  induction N as [|N IH]; intros s HI Hac Hsize.
  - pose proof (Inv_step_spec jointKind _ _ s HI) as Hspec.
    assert (sdfJoints s = ∅) as Hempty by (apply map_size_empty_iff; lia).
    destruct (it s) as [k|] eqn:Ek.
    { destruct (Inv_cursor _ _ s HI k Ek) as [? Hx].
      by rewrite Hempty, lookup_empty in Hx. }
    inversion Hspec as [_ Hs| | | |]; try congruence.
    simpl. rewrite <-Hs. eauto.
  - destruct (it s) as [k|] eqn:Ek.
    2:{ pose proof (Inv_step_spec jointKind _ _ s HI) as Hspec.
        inversion Hspec as [_ Hs| | | |]; try congruence.
        rewrite Nat.add_1_r. simpl. rewrite <-Hs. eauto. }
    destruct (round (S N) s k []) as (n & Hn & [[r Hr]|(s' & Hns & Hlt & Hsub)]);
      try done.
    + constructor.
    + by intros ?%not_elem_of_nil.
    + intros v ?%not_elem_of_nil. done.
    + exists r. eapply loop_mono; [exact Hr|]. nia.
    + destruct (IH s') as [r Hr].
      * eapply Inv_rtc; [apply readAllBodyNodes_key|apply collectJoints_key
                        |exact HI|by eapply rtc_nsteps_2].
      * by eapply acyclic_subseteq.
      * lia.
      * exists r. eapply loop_mono.
        -- rewrite (loop_nsteps _ _ n (N * (N + 1) + 1) s s' Hns).
           exact Hr.
        -- apply square_bound. lia.
Qed.

Lemma steps_to_det s s1 s2 :
  steps_to jointKind bodies s s1 → steps_to jointKind bodies s s2 → s1 = s2.
Proof. unfold steps_to. congruence. Qed.

Lemma nsteps_det n s s1 s2 :
  nsteps (steps_to jointKind bodies) n s s1 →
  nsteps (steps_to jointKind bodies) n s s2 → s1 = s2.
Proof.
  intros H1. revert s2. induction H1 as [|n x y z Hxy _ IH]; intros s2 H2.
  - by inversion H2.
  - inversion H2 as [|? ? y' ? Hxy' Hrest]; subst.
    rewrite <-(steps_to_det _ _ _ Hxy Hxy') in Hrest. by apply IH.
Qed.

Lemma pending_shrinks s s' :
  Inv' s → rtc (steps_to jointKind bodies) s s' →
  sdfJoints s' ⊆ sdfJoints s.
Proof.
  intros HI Hr. induction Hr as [|x y z Hxy Hyz IH]; [done|].
  assert (Inv' y) as HIy
    by (by eapply Inv_step; [apply readAllBodyNodes_key
                            |apply collectJoints_key|..]).
  etrans; [by apply IH|].
  pose proof (Inv_step_spec jointKind _ _ x HI) as Hspec.
  unfold steps_to in Hxy. rewrite Hxy in Hspec.
  inversion Hspec as
    [ | | ? ? ? _ _ _ _ _ _ Hj' | ? ? ? ? ? ? _ _ _ _ _ _ Hj' _
      | ? ? ? ? ? ? _ _ _ _ _ Hj' _ ]; subst; rewrite Hj'; [done|done|].
  apply delete_subseteq.
Qed.

(** Between two erasures the loop goes round at most as many times as
    there are pending joints. *)
Lemma chain_bound s n s' :
  Inv' s → acyclic (sdfJoints s) →
  nsteps (steps_to jointKind bodies) n s s' →
  sdfJoints s' = sdfJoints s →
  n ≤ size (sdfJoints s).
Proof.
  intros HI Hac Hns Heq.
  destruct n as [|n]; [lia|].
  destruct (it s) as [k|] eqn:Ek.
  2:{ pose proof (Inv_step_spec jointKind _ _ s HI) as Hspec.
      inversion Hns as [|? ? y ? Hxy _]; subst. unfold steps_to in Hxy.
      rewrite Hxy in Hspec. inversion Hspec; congruence. }
  destruct (round (size (sdfJoints s)) s k [])
    as (n0 & Hn0 & [[r Hr]|(s1 & Hns1 & Hlt & Hsub)]); try done.
  - constructor.
  - by intros ?%not_elem_of_nil.
  - intros v ?%not_elem_of_nil. done.
  - destruct (decide (n0 ≤ S n)) as [Hle|]; [|lia].
    pose proof (loop_mono _ _ _ _ _ _ Hr Hle) as Hr'.
    pose proof (loop_nsteps _ _ (S n) 0 s s' Hns) as Hl.
    rewrite Nat.add_0_r in Hl. simpl in Hl, Hr'. congruence.
  - destruct (decide (n0 ≤ S n)) as [Hle|]; [|lia].
    replace (S n) with (n0 + (S n - n0)) in Hns by lia.
    apply nsteps_add_inv in Hns as (y & Hy & Hrest).
    rewrite (nsteps_det _ _ _ _ Hy Hns1) in Hrest.
    assert (sdfJoints s' ⊆ sdfJoints s1) as Hsub'.
    { apply pending_shrinks; [|by eapply rtc_nsteps_2].
      eapply Inv_rtc; [apply readAllBodyNodes_key|apply collectJoints_key
                      |exact HI|by eapply rtc_nsteps_2]. }
    apply map_subseteq_size in Hsub'. rewrite Heq in Hsub'. lia.
Qed.
(** C6.  When no chain of parent names among the registered joints is
    cyclic, the loop returns, within [N * (N + 1) + 1] evaluations of
    its condition for [N] registered joints.  An iteration that does not
    leave the loop either erases exactly one pending joint, or keeps
    the registry and moves the cursor to the pending joint of the
    parent, or keeps registry and cursor and adds the root of the
    parent link to the Skeleton; no iteration dereferences a stale
    iterator.  Iterations that keep the registry come at most
    [size pending] in a row. *)
Theorem assembly_terminates :
  acyclic registry →
  is_Some (assemble jointKind (size registry * (size registry + 1) + 1)
             links joints)
  ∧ (∀ s, reachable s →
       match step jointKind bodies s with
       | Next s' =>
           (∃ k, it s = Some k ∧ is_Some (sdfJoints s !! k)
                 ∧ sdfJoints s' = delete k (sdfJoints s)
                 ∧ S (size (sdfJoints s')) = size (sdfJoints s))
           ∨ (∃ k p, it s = Some k ∧ parent_edge (sdfJoints s) k p
                     ∧ it s' = Some p
                     ∧ sdfJoints s' = sdfJoints s
                     ∧ newSkeleton s' = newSkeleton s)
           ∨ (it s' = it s ∧ sdfJoints s' = sdfJoints s
              ∧ length (newSkeleton s') = S (length (newSkeleton s)))
       | Return _ s' =>
           sdfJoints s' = sdfJoints s ∧ newSkeleton s' = newSkeleton s
       | Undefined => False
       end)
  ∧ (∀ s n s', reachable s →
       nsteps (steps_to jointKind bodies) n s s' →
       sdfJoints s' = sdfJoints s →
       n ≤ size (sdfJoints s)).
Proof.
  intros Hac. split_and!.
  - unfold assemble. apply loop_terminates; [apply Inv_init|done|done].
  - intros s Hr. pose proof (reachable_Inv s Hr) as HI.
    pose proof (Inv_step_spec jointKind _ _ s HI) as Hspec.
    destruct (step jointKind bodies s) as [s1|e s1|] eqn:Es.
    + inversion Hspec as
        [ | | k cur s0 Hk Hcur Hnr Hpj Hit' Hsk' Hj'
          | k cur rootNode nt jk s0 Hk Hcur Hnr Hpn Hb Hit' Hj' Hsk'
          | k cur childNode nt jk s0 Hk Hcur Hr' Hb Hit' Hj' Hsk' ]; subst s0.
      * right; left. exists k, (parentName cur).
        split_and!; try done. by exists cur.
      * right; right. split_and!; [congruence|done|].
        rewrite Hsk', length_app. simpl. lia.
      * left. exists k. split_and!; [done|eauto|done|].
        rewrite Hj', map_size_delete_Some by eauto.
        assert (size (sdfJoints s) ≠ 0); [|lia].
        apply map_size_non_empty_iff. intros Hempty.
        by rewrite Hempty, lookup_empty in Hcur.
    + inversion Hspec; subst; done.
    + inversion Hspec.
  - intros s n s' Hr Hns Heq. eapply chain_bound; eauto.
    + by apply reachable_Inv.
    + eapply acyclic_subseteq; [|exact Hac].
      apply (inv_pending _ _ _ (reachable_Inv s Hr)).
Qed.

(** C1, as the code has it.  A registered joint whose parent is neither
    "world" nor empty, and names no link and no child of a registered
    joint, makes every assembly that returns do so by [break], after a
    report; the joint is still pending then and its child link is not
    in the Skeleton.  What is returned is the Skeleton as built up to
    the [break].  Without a cyclic chain of parents the assembly does
    return. *)
Theorem missing_parent_breaks c (j : SDFJoint T) :
  registry !! c = Some j →
  parentName j ≠ "world" → parentName j ≠ "" →
  bodies !! parentName j = None →
  registry !! parentName j = None →
  (∀ fuel e s, assemble jointKind fuel links joints = Some (e, s) →
     e = LoopBreak
     ∧ (∃ s0 d, reachable s0 ∧ newSkeleton s = newSkeleton s0
                ∧ dterr s = dterr s0 ++ [d])
     ∧ sdfJoints s !! c = Some j
     ∧ c ∉ getName <$> newSkeleton s)
  ∧ (acyclic registry →
     ∃ fuel s, assemble jointKind fuel links joints = Some (LoopBreak, s)).
Proof.
  intros Hc Hw He Hb Hnj.
  assert (∀ fuel e s, assemble jointKind fuel links joints = Some (e, s) →
     e = LoopBreak
     ∧ (∃ s0 d, reachable s0 ∧ newSkeleton s = newSkeleton s0
                ∧ dterr s = dterr s0 ++ [d])
     ∧ sdfJoints s !! c = Some j
     ∧ c ∉ getName <$> newSkeleton s) as Hsafe.
  { intros fuel e s Ha.
    apply assemble_returns in Ha as (s0 & Hr & Hsk & Hj & He').
    pose proof (missing_parent_stays c j s0 Hc Hw He Hb Hr) as Hstay.
    assert (c ∉ getName <$> newSkeleton s) as Hout.
    { rewrite Hsk. apply pending_not_built; [by apply reachable_Inv|eauto]. }
    destruct e.
    - destruct He' as [-> Hempty]. by rewrite Hempty, lookup_empty in Hstay.
    - destruct He' as [d Hd]. split_and!; [done|by exists s0, d| |done].
      by rewrite Hj. }
  split; [exact Hsafe|].
  intros Hac.
  destruct (loop_terminates (size registry) init) as [[e s] Ha];
    [apply Inv_init|done|done|].
  destruct (Hsafe _ _ _ Ha) as (-> & _). eauto.
Qed.
End Assembly.

(** ** Two joints that claim the same child *)

Section Claims.
Context {T : Type} `{!Isometry T}.
Variable jointKind : string → option JointKind.
Implicit Types (j : SDFJoint T) (joints : list (SDFJoint T)).



End Claims.

(** ** Checking for cycles *)

Section ChainFacts.
Context {T : Type}.
Implicit Types m : JointMap T.

Lemma cycle_step m k :
  tc (parent_edge m) k k →
  ∃ j, m !! k = Some j
       ∧ tc (parent_edge m) (parentName j) (parentName j).
Proof.
  intros Htc.
  inversion Htc as [? ? Hedge|? y ? Hedge Hrest]; subst;
    pose proof Hedge as (j & Hj & Hp & _); exists j; split; try done;
    rewrite Hp.
  - done.
  - by eapply tc_r.
Qed.

Lemma escapes_cycle fuel m k :
  tc (parent_edge m) k k → escapes fuel m k = false.
Proof.
  revert k. induction fuel as [|fuel IH]; intros k Hk; [done|].
  simpl. destruct (cycle_step m k Hk) as (j & -> & Hj). by apply IH.
Qed.

Lemma acyclicb_sound m : acyclicb m = true → acyclic m.
Proof.
  unfold acyclicb. rewrite forallb_forall. intros Hall k Hk.
  destruct (cycle_step m k Hk) as (j & Hj & _).
  assert (false = true); [|done].
  rewrite <-(escapes_cycle (S (size m)) m k Hk). apply (Hall k).
  apply list_elem_of_In, list_elem_of_fmap. exists (k, j).
  split; [done|]. by apply elem_of_map_to_list.
Qed.
End ChainFacts.

(** ** The pair factory and the kind of a link *)

Section LinkKinds.
Context {T : Type} `{!Isometry T}.
Variable jointKind : string → option JointKind.
Implicit Types (s : @LoopState T) (cur : SDFJoint T).

Lemma createPair_unsupported (skeleton : Skeleton T) parent
    (newJoint : SDFJoint T) (newBody : SDFBodyNode T) :
  body_type newBody ≠ "" → body_type newBody ≠ "soft" →
  createPair jointKind skeleton parent newJoint newBody
  = (None, [UnsupportedLinkType (body_type newBody)]).
Proof. intros H1 H2. unfold createPair. by repeat case_decide. Qed.

(** C8.  [createPair] looks at the type tag of the link alone to choose
    the BodyNode class: with an empty tag the pair it appends has a
    standard BodyNode, with the tag "soft" a SoftBodyNode; with any
    other tag it appends nothing, reports the unsupported link type and
    returns [false], and the iteration of the loop that called it, for
    the pair of a joint or for the root of a parent link, leaves the loop
    by [break] with the Skeleton and the registry unchanged. *)
Theorem createPair_link_type (skeleton : Skeleton T) parent
    (newJoint : SDFJoint T) (newBody : SDFBodyNode T) :
  (body_type newBody = "" →
   ∀ jk, jointKind (type newJoint) = Some jk →
     createPair jointKind skeleton parent newJoint newBody
     = (Some (skeleton ++ [{| node_type := RigidBodyNode; joint_kind := jk;
                              parentBodyNode := parent;
                              joint := newJoint; body := newBody |}]), []))
  ∧ (body_type newBody = "soft" →
     ∀ jk, jointKind (type newJoint) = Some jk →
       createPair jointKind skeleton parent newJoint newBody
       = (Some (skeleton ++ [{| node_type := SoftBodyNode; joint_kind := jk;
                                parentBodyNode := parent;
                                joint := newJoint; body := newBody |}]), []))
  ∧ (body_type newBody ≠ "" → body_type newBody ≠ "soft" →
     createPair jointKind skeleton parent newJoint newBody
     = (None, [UnsupportedLinkType (body_type newBody)])
     ∧ ∀ sdfBodyNodes s k cur,
         it s = Some k → sdfJoints s !! k = Some cur →
         (resolved s cur ∧ sdfBodyNodes !! childName cur = Some newBody)
         ∨ (¬ resolved s cur ∧ sdfJoints s !! parentName cur = None
            ∧ sdfBodyNodes !! parentName cur = Some newBody
            ∧ is_Some (sdfBodyNodes !! childName cur)) →
         ∃ s', step jointKind sdfBodyNodes s = Return LoopBreak s'
               ∧ newSkeleton s' = newSkeleton s
               ∧ sdfJoints s' = sdfJoints s
               ∧ dterr s' = dterr s
                            ++ [UnsupportedLinkType (body_type newBody)]).
Proof.
  split_and!.
  - intros Ht jk Hjk. unfold createPair, createJointAndNodePair.
    rewrite Hjk. by case_decide.
  - intros Ht jk Hjk. unfold createPair, createJointAndNodePair.
    rewrite Hjk, Ht. by repeat case_decide.
  - intros H1 H2. split; [by apply createPair_unsupported|].
    intros sdfBodyNodes s k cur Hk Hcur Hcase.
    unfold step. rewrite Hk, Hcur. unfold getNextJointAndNodePair.
    destruct Hcase as [[Hr Hc]|(Hnr & Hpj & Hp & [cn Hc])].
    + apply resolved_dec in Hr. rewrite Hr, Hc. simpl. rewrite Hc.
      rewrite createPair_unsupported by done.
      eexists. split; [done|]. simpl. by rewrite app_nil_r.
    + destruct (bool_decide _ && _ && _) eqn:Er.
      2:{ by apply resolved_dec in Er. }
      rewrite Hpj, Hp, Hc. simpl.
      rewrite createPair_unsupported by done.
      eexists. split; [done|]. simpl. by rewrite app_nil_r.
Qed.
End LinkKinds.

(** ** The version gate *)

Section VersionGate.
Context {T : Type} `{!Isometry T}.
Variable jointKind : string → option JointKind.
Variable openXMLFile : string → option (@XMLDocument T).

(** C9.  When the file loads and its [<sdf>] element has a [version]
    other than "1.4" and "1.5", [readSdfFile] and [readSkeleton], called
    with the file name, both return a null pointer after one report
    that the file is not sdf 1.4 or 1.5; they do so before [readWorld]
    or the assembly of a Skeleton could start, whatever the rest of the
    document holds. *)
Theorem version_gate fuel _filename _dartFile sdf :
  openXMLFile _filename = Some _dartFile →
  sdfElement _dartFile = Some sdf →
  version sdf ≠ "1.4" → version sdf ≠ "1.5" →
  readSdfFile jointKind openXMLFile fuel _filename
  = Ok (Some {| returned := None; reported := [NotSdfVersion _filename] |})
  ∧ readSkeleton_file jointKind openXMLFile fuel _filename
    = Ok (Some {| returned := None;
                  reported := [NotSdfVersion _filename] |}).
Proof.
  intros Hopen Hsdf H14 H15. unfold readSdfFile, readSkeleton_file.
  rewrite Hopen, Hsdf.
  by rewrite !bool_decide_eq_true_2.
Qed.
End VersionGate.

(** ** The moment of inertia of a link *)

Section Moments.
Context {double T Shape : Type}.
Variable computeInertia : Shape → double → @Matrix3d double.
Variable translation : T → double * double * double.
Implicit Types (e : @LinkElement double T Shape) (fresh : @Inertia double).

Lemma pushShapes_nulls (nulls : list (option Shape)) shape rest :
  Forall (λ r, r = None) nulls →
  pushShapes (nulls ++ Some shape :: rest) = shape :: pushShapes rest.
Proof.
  unfold pushShapes. induction 1 as [|x l -> _ IH]; simpl; [done|].
  apply IH.
Qed.

Lemma pushShapes_all_null (read : list (option Shape)) :
  Forall (λ r, r = None) read → pushShapes read = [].
Proof.
  unfold pushShapes. induction 1 as [|x l -> _ IH]; simpl; done.
Qed.

(** C10.  For a link with an [<inertial>] element that has no
    [<inertia>] child: if some [<visual>] gave a shape, the moment is
    set from [computeInertia] of the first such shape at the mass the
    Inertia then has, which is the declared mass if [<mass>] is there
    and the default mass otherwise; if no [<visual>] gave a shape, the
    moment stays the default one.  It also stays the default one for a
    link without an [<inertial>] element. *)
Theorem readBodyNode_moment fresh e :
  (∀ ie nulls shape rest,
     le_inertial e = Some ie → ie_inertia ie = None →
     le_visual e = nulls ++ Some shape :: rest →
     Forall (λ r, r = None) nulls →
     let mass := default (getMass fresh) (ie_mass ie) in
     let Ic := computeInertia shape mass in
     getMoment (mInertia (readBodyNode computeInertia translation fresh e))
     = {| ixx := Ic 0 0; iyy := Ic 1 1; izz := Ic 2 2;
          ixy := Ic 0 1; ixz := Ic 0 2; iyz := Ic 1 2 |}
     ∧ getMass (mInertia (readBodyNode computeInertia translation fresh e))
       = mass)
  ∧ ((∀ ie, le_inertial e = Some ie → ie_inertia ie = None) →
     Forall (λ r, r = None) (le_visual e) →
     getMoment (mInertia (readBodyNode computeInertia translation fresh e))
     = getMoment fresh).
Proof.
  split.
  - intros ie nulls shape rest Hie Hmoi Hviz Hnulls. unfold readBodyNode.
    simpl. rewrite Hie, Hviz, pushShapes_nulls by done.
    unfold readInertial. rewrite Hmoi.
    destruct (ie_mass ie), (ie_pose ie); done.
  - intros Hmoi Hviz. unfold readBodyNode. simpl.
    destruct (le_inertial e) as [ie|] eqn:Hie; [|done].
    rewrite pushShapes_all_null by done. unfold readInertial.
    rewrite (Hmoi ie eq_refl).
    destruct (ie_mass ie), (ie_pose ie); done.
Qed.
End Moments.

(** ** Joints read from [<joint>] elements *)

Section ReadJointFacts.
Context {T : Type} `{!Isometry T}.
Implicit Types (e : @JointElement T) (j : SDFJoint T).

(** When [readJoint] returns for every [<joint>] element, the registry
    is the one collected from the records it returned, and
    [readSkeleton] is the assembly of those records. *)
Lemma readAllJoints_from_collect acc (elems : list (@JointElement T))
    (js : list (SDFJoint T)) (sdfBodyNodes : BodyMap T) :
  Forall2 (λ e j, readJoint e sdfBodyNodes = Ok j) elems js →
  readAllJoints_from acc elems sdfBodyNodes = Ok (foldl addJoint acc js).
Proof.
  intros H. revert acc. induction H as [|e j elems js He _ IH]; intros acc.
  - done.
  - simpl. rewrite He. simpl. apply IH.
Qed.

Lemma readSkeleton_assemble jointKind fuel (m : @ModelElement T)
    (js : list (SDFJoint T)) :
  Forall2 (λ e j, readJoint e (readAllBodyNodes (links m)).1 = Ok j)
    (joints m) js →
  readSkeleton jointKind fuel m = Ok (assemble jointKind fuel (links m) js).
Proof.
  intros H. unfold readSkeleton, readAllJoints.
  by rewrite (readAllJoints_from_collect _ _ js).
Qed.

(** A joint whose [<parent>] is "world" comes out of [readJoint] with
    an empty child name, whatever its [<child>] is. *)
Lemma readJoint_world_parent e (sdfBodyNodes : BodyMap T) j :
  je_parent e = Some "world" →
  readJoint e sdfBodyNodes = Ok j →
  parentName j = "" ∧ childName j = "".
Proof.
  unfold readJoint. intros ->. simpl.
  destruct (decide (je_type e = "")); [done|]. simpl.
  destruct (je_child e) as [c|]; [|done].
  destruct (sdfBodyNodes !! c); [|done]. simpl.
  destruct (readJointProperties e) as [[k|]| |]; simpl; [|done..].
  by intros [= <-].
Qed.

(** A type tag outside the five that [readJoint] tests for leaves the
    properties pointer null, and the name is then written through it. *)
Lemma readJoint_other_type e (sdfBodyNodes : BodyMap T) :
  je_type e ∉ ["prismatic"; "revolute"; "screw"; "revolute2"; "ball"] →
  readJoint e sdfBodyNodes = NullDereference
  ∨ readJoint e sdfBodyNodes = AssertFailed.
Proof.
  intros Ht. unfold readJoint.
  assert (readJointProperties e = Ok None) as ->.
  { unfold readJointProperties. repeat case_decide; try done;
      destruct Ht; set_solver. }
  destruct (decide (je_type e = "")); [by right|]. simpl.
  destruct (je_parent e) as [p|]; [|by right].
  case_decide; simpl.
  - destruct (sdfBodyNodes !! p); [|by right]. simpl.
    destruct (je_child e) as [c|]; [|by right].
    destruct (sdfBodyNodes !! c); [|by right]. by left.
  - destruct (je_child e) as [c|]; [|by right].
    destruct (sdfBodyNodes !! c); [|by right]. by left.
Qed.
End ReadJointFacts.

(** The chain is assembled A, B, C. *)
Example chain_assembled :
  assemble sdfJointKind 20 chainLinks chainJoints = Some (LoopEnd, chainFinal)
  ∧ getName <$> newSkeleton chainFinal = ["A"; "B"; "C"].
Proof. split; vm_compute; reflexivity. Qed.

(** C1, counterexample.  JB of [strayJoints] asks for the parent
    "missing", which is no link and no child of a joint; the loop has
    put A into the Skeleton by then, and [readSkeleton] returns that
    Skeleton of one BodyNode. *)
Example missing_parent_partial_skeleton :
  (collectJoints strayJoints).1 !! "B" = Some (revolute "JB" "missing" "B")
  ∧ (readAllBodyNodes strayLinks).1 !! "missing" = None
  ∧ (collectJoints strayJoints).1 !! "missing" = None
  ∧ ∃ sk, readSkeleton_records sdfJointKind 3 strayLinks strayJoints = Some sk
          ∧ getName <$> sk = ["A"]
          ∧ length sk = 1.
Proof.
  split_and!; [vm_compute; reflexivity..|].
  eexists. split_and!; vm_compute; reflexivity.
Qed.

Lemma missing_parent_breaks_witness :
  (∀ fuel e s,
     assemble sdfJointKind fuel strayLinks strayJoints = Some (e, s) →
     e = LoopBreak
     ∧ (∃ s0 d,
          rtc (steps_to sdfJointKind (readAllBodyNodes strayLinks).1)
            (initState (collectJoints strayJoints).1
               ((readAllBodyNodes strayLinks).2 ++ (collectJoints strayJoints).2))
            s0
          ∧ newSkeleton s = newSkeleton s0 ∧ dterr s = dterr s0 ++ [d])
     ∧ sdfJoints s !! "B" = Some (revolute "JB" "missing" "B")
     ∧ "B" ∉ getName <$> newSkeleton s)
  ∧ (acyclic (collectJoints strayJoints).1 →
     ∃ fuel s,
       assemble sdfJointKind fuel strayLinks strayJoints = Some (LoopBreak, s)).
Proof.
  apply (missing_parent_breaks sdfJointKind strayLinks strayJoints "B"
           (revolute "JB" "missing" "B")).
  - vm_compute; reflexivity.
  - discriminate.
  - discriminate.
  - vm_compute; reflexivity.
  - vm_compute; reflexivity.
Defined.

Lemma orphan_parent_gets_root_witness :
  (∃ i bn, newSkeleton chainFinal !! i = Some bn ∧ getName bn = "A"
           ∧ body bn = rigidLink "A" 1
           ∧ mName (properties (joint bn)) = "root"
           ∧ type (joint bn) = "free"
           ∧ mT_ParentBodyToJoint (properties (joint bn))
             = initTransform (rigidLink "A" 1)
           ∧ parentBodyNode bn = None
           ∧ ∀ i' bn', newSkeleton chainFinal !! i' = Some bn' →
                       getName bn' = "A" → i' = i)
  ∧ (∀ s1 s2,
       rtc (steps_to sdfJointKind (readAllBodyNodes chainLinks).1)
         (initState (collectJoints chainJoints).1
            ((readAllBodyNodes chainLinks).2 ++ (collectJoints chainJoints).2))
         s1 →
       steps_to sdfJointKind (readAllBodyNodes chainLinks).1 s1 s2 →
       "A" ∉ getName <$> newSkeleton s1 →
       "A" ∈ getName <$> newSkeleton s2 →
       sdfJoints s2 = sdfJoints s1 ∧ it s2 = it s1).
Proof.
  apply (orphan_parent_gets_root sdfJointKind chainLinks chainJoints 20
           chainFinal "A" "B" (revolute "J1" "A" "B") (rigidLink "A" 1)).
  - vm_compute; reflexivity.
  - vm_compute; reflexivity.
  - reflexivity.
  - discriminate.
  - discriminate.
  - vm_compute; reflexivity.
  - vm_compute; reflexivity.
Defined.

Lemma parent_before_child_witness :
  (("A" ∉ getName <$> newSkeleton descentInit)
   ∧ ∃ s', step sdfJointKind (readAllBodyNodes descentLinks).1 descentInit
           = Next s'
           ∧ it s' = Some "X"
           ∧ newSkeleton s' = newSkeleton descentInit
           ∧ sdfJoints s' = sdfJoints descentInit)
  ∧ (getName <$> newSkeleton descentFinal = ["R"; "X"; "A"]
     ∧ ∃ bn, newSkeleton descentFinal !! 2 = Some bn
             ∧ ∃ p, parentBodyNode bn = Some p ∧ p < 2
                    ∧ ∀ q qb, newSkeleton descentFinal !! q = Some qb →
                              getName qb = "X" → q = p).
Proof.
  split.
  - apply (proj2 (parent_before_child sdfJointKind descentLinks descentJoints
                    descentInit (or_introl (rtc_refl _ _)))
             "A" (revolute "J1" "X" "A")).
    + reflexivity.
    + vm_compute; reflexivity.
    + intros [[q Hq]|[Hq|Hq]]; vm_compute in Hq; discriminate.
    + eexists. vm_compute; reflexivity.
  - split; [reflexivity|]. eexists. split; [reflexivity|].
    eapply (λ Hs, proj2 (proj1 (parent_before_child sdfJointKind descentLinks
                                  descentJoints descentFinal Hs)
                           2 _ eq_refl)).
    + right. exists 20, LoopEnd. vm_compute; reflexivity.
    + discriminate.
    + discriminate.
Defined.


Lemma assembly_terminates_witness :
  acyclic (collectJoints chainJoints).1
  ∧ is_Some (assemble sdfJointKind 7 chainLinks chainJoints).
Proof.
  assert (acyclic (collectJoints chainJoints).1) as Hac.
  { apply acyclicb_sound. vm_compute; reflexivity. }
  split; [exact Hac|].
  exact (proj1 (assembly_terminates sdfJointKind chainLinks chainJoints Hac)).
Defined.

Lemma version_gate_witness :
  readSdfFile sdfJointKind sdf16 0 "model.sdf"
  = Ok (Some {| returned := None; reported := [NotSdfVersion "model.sdf"] |})
  ∧ readSkeleton_file sdfJointKind sdf16 0 "model.sdf"
    = Ok (Some {| returned := None;
                  reported := [NotSdfVersion "model.sdf"] |}).
Proof.
  apply (version_gate sdfJointKind sdf16 0 "model.sdf"
           {| sdfElement := Some {| version := "1.6"; sdf_world := None;
                                    sdf_model := None |} |}
           {| version := "1.6"; sdf_world := None; sdf_model := None |}).
  - reflexivity.
  - reflexivity.
  - discriminate.
  - discriminate.
Defined.

(** C2, at the failing input.  A model with the link A and the joint J1
    from "world" to A: [readJoint] gives J1 an empty child name, so
    [readAllJoints] reports and drops it, the loop has nothing to do, and
    the Skeleton returned has no BodyNode; A is not in it.  Given the
    record with its child name, the loop does make A a root under J1. *)
Theorem world_joint_is_dropped :
  readJoint (jointElement "revolute" "J1" "world" "A")
    (readAllBodyNodes [rigidLink "A" 1]).1
  = Ok {| properties := {| mName := "J1"; mT_ParentBodyToJoint := 1%Z;
                           mT_ChildBodyToJoint := 0%Z;
                           mClass := RevoluteJoint |};
          parentName := ""; childName := ""; type := "revolute" |}
  ∧ (∃ s, readSkeleton sdfJointKind 5
           {| links := [rigidLink "A" 1];
              joints := [jointElement "revolute" "J1" "world" "A"] |}
         = Ok (Some (LoopEnd, s))
         ∧ newSkeleton s = []
         ∧ dterr s = [JointWithoutChild "J1"])
  ∧ ∃ s, assemble sdfJointKind 5 [rigidLink "A" 1] [revolute "J1" "" "A"]
         = Some (LoopEnd, s)
         ∧ newSkeleton s
           = [{| node_type := RigidBodyNode; joint_kind := RevoluteJoint;
                 parentBodyNode := None; joint := revolute "J1" "" "A";
                 body := rigidLink "A" 1 |}].
Proof.
  split; [vm_compute; reflexivity|]. split.
  - eexists. split_and!; vm_compute; reflexivity.
  - eexists. split; vm_compute; reflexivity.
Qed.

(** C7, at the failing input.  A model with the links A and B and a
    joint of type "fixed" from A to B: none of the five tests in
    [readJoint] allocates its properties, the name is written through the
    null pointer, and no report precedes it; the pair factory is never
    reached. *)
Theorem fixed_joint_null_dereference :
  readJoint (jointElement "fixed" "J1" "A" "B")
    (readAllBodyNodes [rigidLink "A" 1; rigidLink "B" 2]).1
  = NullDereference
  ∧ ∀ fuel, readSkeleton sdfJointKind fuel
              {| links := [rigidLink "A" 1; rigidLink "B" 2];
                 joints := [jointElement "fixed" "J1" "A" "B"] |}
            = NullDereference.
Proof.
  split; [vm_compute; reflexivity|].
  intros fuel.
  assert (readJoint (jointElement "fixed" "J1" "A" "B")
            (readAllBodyNodes [rigidLink "A" 1; rigidLink "B" 2]).1
          = NullDereference) as Hr by (vm_compute; reflexivity).
  unfold readSkeleton, readAllJoints.
  cbn [links joints readAllJoints_from]. by rewrite Hr.
Qed.

Lemma createPair_link_type_witness :
  createPair sdfJointKind [] None (revolute "J1" "" "A") (rigidLink "A" 1)
  = (Some [{| node_type := RigidBodyNode; joint_kind := RevoluteJoint;
              parentBodyNode := None; joint := revolute "J1" "" "A";
              body := rigidLink "A" 1 |}], []).
Proof.
  apply (proj1 (createPair_link_type sdfJointKind [] None
                  (revolute "J1" "" "A") (rigidLink "A" 1))).
  - reflexivity.
  - reflexivity.
Defined.

Lemma readBodyNode_moment_witness :
  let Ic (shape : string) (mass : Z) (i j : nat) : Z :=
    if decide (i = j) then mass else 0%Z in
  let fresh := {| getMass := 1%Z; getLocalCOM := (0, 0, 0)%Z;
                  getMoment := {| ixx := 1%Z; iyy := 1%Z; izz := 1%Z;
                                  ixy := 0%Z; ixz := 0%Z; iyz := 0%Z |} |} in
  getMoment (mInertia (readBodyNode Ic (λ t : Z, (t, 0, 0)%Z) fresh massOnly))
  = {| ixx := 5%Z; iyy := 5%Z; izz := 5%Z;
       ixy := 0%Z; ixz := 0%Z; iyz := 0%Z |}
  ∧ getMass (mInertia (readBodyNode Ic (λ t : Z, (t, 0, 0)%Z) fresh massOnly))
    = 5%Z.
Proof.
  intros Ic fresh.
  apply (proj1 (readBodyNode_moment Ic (λ t : Z, (t, 0, 0)%Z) fresh massOnly)
           {| ie_mass := Some 5%Z; ie_pose := None; ie_inertia := None |}
           [None] "box" []).
  - reflexivity.
  - reflexivity.
  - reflexivity.
  - repeat constructor.
Defined.

(** * Further properties *)

#[local] Set Warnings "-clear-no-such-hyp".

(** ** The registries as a whole *)

Section RegistryTotals.
Context {T : Type}.
Implicit Types (links : list (SDFBodyNode T)) (joints : list (SDFJoint T)).

(** X1.  [readAllBodyNodes] stores under each name the first link of
    that name in input order, and reports every other link of an input
    as a duplicate of a name it has stored: links stored and reports
    add up to the links read. *)
Theorem readAllBodyNodes_first_wins links :
  (∀ n, (readAllBodyNodes links).1 !! n
        = snd <$> list_find (λ b : SDFBodyNode T, body_mName b = n) links)
  ∧ length links
    = size (readAllBodyNodes links).1 + length (readAllBodyNodes links).2
  ∧ (∀ d, d ∈ (readAllBodyNodes links).2 →
          ∃ n, d = DuplicateLinkName n
               ∧ is_Some ((readAllBodyNodes links).1 !! n)).
Proof.
  induction links as [|x links (IHl & IHn & IHd)] using rev_ind.
  - split_and!; [|done|].
    + intros n. simpl. by rewrite lookup_empty.
    + intros d Hd. by apply not_elem_of_nil in Hd.
  - rewrite readAllBodyNodes_snoc. unfold addBodyNode.
    destruct ((readAllBodyNodes links).1 !! body_mName x) as [b|] eqn:E;
      simpl.
    + split_and!.
      * intros n. rewrite IHl.
        destruct (list_find (λ b, body_mName b = n) links) as [[i y]|] eqn:Ef.
        -- by rewrite (list_find_app_l _ _ _ _ _ Ef).
        -- rewrite list_find_app_r by done. simpl.
           case_decide as Hn; [|done]. rewrite Hn, IHl, Ef in E. done.
      * rewrite !length_app. simpl. lia.
      * intros d [Hd|Hd]%elem_of_app; [by apply IHd|].
        apply list_elem_of_singleton in Hd as ->. eauto.
    + split_and!.
      * intros n. rewrite lookup_insert. case_decide as Hn.
        -- subst n. rewrite IHl in E. apply fmap_None in E.
           rewrite list_find_app_r by done. simpl. by case_decide.
        -- rewrite IHl.
           destruct (list_find (λ b, body_mName b = n) links)
             as [[i y]|] eqn:Ef.
           ++ by rewrite (list_find_app_l _ _ _ _ _ Ef).
           ++ rewrite list_find_app_r by done. simpl. by case_decide.
      * rewrite length_app, map_size_insert_None by done. simpl. lia.
      * intros d Hd. destruct (IHd d Hd) as (n & -> & Hn). exists n.
        split; [done|]. rewrite lookup_insert. by case_decide; eauto.
Qed.

(** X2.  Every joint record that [readAllJoints] goes through is either
    registered or reported, never both and never silently lost: the
    registered joints and the reports add up to the records read.  A
    registered joint stands under its own child name, which is not
    empty; a report is about a record without child name or about one
    whose child name is already a key of the registry. *)
Theorem collectJoints_accounts joints :
  length joints
  = size (collectJoints joints).1 + length (collectJoints joints).2
  ∧ (∀ k j, (collectJoints joints).1 !! k = Some j →
            k ≠ "" ∧ childName j = k ∧ j ∈ joints)
  ∧ (∀ d, d ∈ (collectJoints joints).2 →
          (∃ j, j ∈ joints ∧ childName j = ""
                ∧ d = JointWithoutChild (mName (properties j)))
          ∨ (∃ j j1, j ∈ joints
                     ∧ (collectJoints joints).1 !! childName j = Some j1
                     ∧ d = ChildAlreadyClaimed (mName (properties j))
                             (childName j) (mName (properties j1)))).
Proof.
  induction joints as [|x joints (IHn & IHk & IHd)] using rev_ind.
  - split_and!; [done| |].
    + intros k j. simpl. by rewrite lookup_empty.
    + intros d Hd. by apply not_elem_of_nil in Hd.
  - rewrite collectJoints_snoc. unfold addJoint.
    assert (∀ d, d ∈ (collectJoints joints).2 →
      ∀ m' : JointMap T,
        (∀ k j, (collectJoints joints).1 !! k = Some j → m' !! k = Some j) →
        (∃ j, j ∈ joints ++ [x] ∧ childName j = ""
              ∧ d = JointWithoutChild (mName (properties j)))
        ∨ (∃ j j1, j ∈ joints ++ [x]
                   ∧ m' !! childName j = Some j1
                   ∧ d = ChildAlreadyClaimed (mName (properties j))
                           (childName j) (mName (properties j1)))) as Hold.
    { intros d Hd m' Hm'.
      destruct (IHd d Hd) as [(j & Hj & ? & ?)|(j & j1 & Hj & ? & ?)].
      - left. exists j. split_and!; [|done..]. apply elem_of_app. by left.
      - right. exists j, j1. split_and!; [|by apply Hm'|done].
        apply elem_of_app. by left. }
    assert (x ∈ joints ++ [x]) as Hx
      by (apply elem_of_app; right; by apply list_elem_of_singleton).
    case_decide as Hc; simpl.
    + split_and!.
      * rewrite !length_app. simpl. lia.
      * intros k j Hkj. destruct (IHk k j Hkj) as (? & ? & ?).
        split_and!; [done..|]. apply elem_of_app. by left.
      * intros d [Hd|Hd]%elem_of_app; [by apply Hold|].
        apply list_elem_of_singleton in Hd as ->. left. by exists x.
    + destruct ((collectJoints joints).1 !! childName x) as [j1|] eqn:E;
        simpl.
      * split_and!.
        -- rewrite !length_app. simpl. lia.
        -- intros k j Hkj. destruct (IHk k j Hkj) as (? & ? & ?).
           split_and!; [done..|]. apply elem_of_app. by left.
        -- intros d [Hd|Hd]%elem_of_app; [by apply Hold|].
           apply list_elem_of_singleton in Hd as ->. right. by exists x, j1.
      * split_and!.
        -- rewrite length_app, map_size_insert_None by done. simpl. lia.
        -- intros k j. rewrite lookup_insert. case_decide as Hk.
           ++ intros [= <-]. by subst k.
           ++ intros Hkj. destruct (IHk k j Hkj) as (? & ? & ?).
              split_and!; [done..|]. apply elem_of_app. by left.
        -- intros d Hd. apply Hold; [done|]. intros k j Hkj.
           rewrite lookup_insert_ne; [done|]. intros <-. congruence.
Qed.
End RegistryTotals.

(** ** More on the loop *)

Section StepReports.
Context {T : Type} `{!Isometry T}.
Variable jointKind : string → option JointKind.
Variable sdfBodyNodes : BodyMap T.
Implicit Types (s : @LoopState T) (cur : SDFJoint T).

Lemma createPair_Some_dterr (skeleton : Skeleton T) parent
    (newJoint : SDFJoint T) (newBody : SDFBodyNode T) sk d :
  createPair jointKind skeleton parent newJoint newBody = (Some sk, d) →
  d = [].
Proof.
  unfold createPair, createJointAndNodePair. intros Hc.
  repeat case_decide; destruct (jointKind (type newJoint)); by simplify_eq.
Qed.

Lemma createPair_accepts (skeleton : Skeleton T) parent
    (newJoint : SDFJoint T) (newBody : SDFBodyNode T) :
  body_type newBody = "" ∨ body_type newBody = "soft" →
  is_Some (jointKind (type newJoint)) →
  ∃ sk, createPair jointKind skeleton parent newJoint newBody = (Some sk, []).
Proof.
  intros Hb [jk Hjk]. unfold createPair, createJointAndNodePair. rewrite Hjk.
  destruct Hb as [Hb|Hb]; rewrite Hb; repeat case_decide; eauto; done.
Qed.

(** With the links of the joint under the cursor in place, an iteration
    reports nothing unless the pair factory refuses a pair, in which case
    the loop is left by [break]. *)
Lemma step_linked s k cur :
  it s = Some k → sdfJoints s !! k = Some cur → linked sdfBodyNodes cur →
  match step jointKind sdfBodyNodes s with
  | Next s' => dterr s' = dterr s
  | Return e s' =>
      e = LoopBreak
      ∧ ∃ parent newJoint newBody d,
          createPair jointKind (newSkeleton s) parent newJoint newBody
          = (None, [d])
          ∧ dterr s' = dterr s ++ [d]
          ∧ ((newJoint = cur ∧ sdfBodyNodes !! childName cur = Some newBody)
             ∨ (newJoint = rootJoint newBody
                ∧ sdfBodyNodes !! parentName cur = Some newBody))
  | Undefined => False
  end.
Proof.
  intros Hk Hcur [[cn Hc] Hp]. unfold step. rewrite Hk, Hcur.
  unfold getNextJointAndNodePair.
  destruct (bool_decide _ && _ && _) eqn:Er.
  - destruct (sdfJoints s !! parentName cur) as [pj|] eqn:Epj; simpl.
    { by rewrite app_nil_r. }
    destruct Hp as [Hw|[He|[rootNode Hroot]]].
    { apply andb_true_iff in Er as [Er _]. apply andb_true_iff in Er as [_ Er].
      by apply bool_decide_eq_true in Er. }
    { apply andb_true_iff in Er as [_ Er].
      by apply bool_decide_eq_true in Er. }
    rewrite Hroot, Hc. simpl.
    destruct (createPair _ _ _ _ _) as [[sk|] d] eqn:Ecp; simpl.
    + apply createPair_Some_dterr in Ecp as ->. by rewrite !app_nil_r.
    + destruct (createPair_None_dterr _ _ _ _ _ _ Ecp) as [d0 ->].
      split; [done|]. exists None, (rootJoint rootNode), rootNode, d0.
      split_and!; [done|by rewrite app_nil_r|by right].
  - rewrite Hc. simpl. rewrite Hc.
    destruct (createPair _ _ _ _ _) as [[sk|] d] eqn:Ecp; simpl.
    + apply createPair_Some_dterr in Ecp as ->. by rewrite !app_nil_r.
    + destruct (createPair_None_dterr _ _ _ _ _ _ Ecp) as [d0 ->].
      split; [done|]. eexists _, cur, cn, d0.
      split_and!; [done|by rewrite app_nil_r|by left].
Qed.
End StepReports.

Section AssemblyExtras.
Context {T : Type} `{!Isometry T}.
Variable jointKind : string → option JointKind.
Variables (links : list (SDFBodyNode T)) (joints : list (SDFJoint T)).
Implicit Types (s : @LoopState T) (bn : BodyNode T).

Local Abbreviation bodies := (readAllBodyNodes links).1.
Local Abbreviation registry := (collectJoints joints).1.
Local Abbreviation init :=
  (initState registry ((readAllBodyNodes links).2 ++ (collectJoints joints).2)).
Local Abbreviation reachable := (rtc (steps_to jointKind bodies) init).
Local Abbreviation Inv' := (Inv bodies registry).

Lemma reachable_step s s' :
  reachable s → steps_to jointKind bodies s s' → reachable s'.
Proof. intros Hr Hs. by eapply rtc_r. Qed.

(** *** A cyclic chain of parents *)

(** On a cycle the cursor is redirected and nothing else changes. *)
Lemma cycle_redirects s k :
  reachable s → it s = Some k →
  tc (parent_edge (sdfJoints s)) k k → sdfJoints s !! "world" = None →
  ∃ s' p, steps_to jointKind bodies s s'
          ∧ it s' = Some p
          ∧ tc (parent_edge (sdfJoints s)) p p
          ∧ sdfJoints s' = sdfJoints s
          ∧ newSkeleton s' = newSkeleton s.
Proof.
  intros Hr Hk Hcyc Hw. pose proof (reachable_Inv _ _ _ s Hr) as HI.
  destruct (cycle_step _ _ Hcyc) as (j & Hj & Hp).
  destruct (cycle_step _ _ Hp) as (pj & Hpj & _).
  assert (¬ resolved s j) as Hnr.
  { intros [[q Hq]|[Hq|Hq]].
    - apply getBodyNode_Some in Hq as (pb & Hpb & Hn).
      apply (pending_not_built _ _ s (parentName j) HI); [eauto|].
      rewrite <-Hn. apply list_elem_of_fmap. exists pb. split; [done|].
      by eapply list_elem_of_lookup_2.
    - congruence.
    - pose proof (lookup_weaken _ _ _ _ Hpj (inv_pending _ _ _ HI)) as Hreg.
      rewrite Hq, collectJoints_empty_key in Hreg. done. }
  eexists _, (parentName j). unfold steps_to, step. rewrite Hk, Hj.
  unfold getNextJointAndNodePair.
  destruct (bool_decide _ && _ && _) eqn:Er.
  2:{ by apply resolved_dec in Er. }
  rewrite Hpj. simpl. split_and!; done.
Qed.

(** X3.  Once the cursor stands on a joint of a cyclic chain of pending
    parents (and no pending joint has a child called "world"), the loop
    never returns: whatever the number of iterations allowed, it is still
    redirecting the cursor along the cycle, and the Skeleton and the
    registry stay as they were. *)
Theorem cyclic_chain_never_returns s k :
  reachable s → it s = Some k →
  tc (parent_edge (sdfJoints s)) k k → sdfJoints s !! "world" = None →
  (∀ fuel, loop jointKind fuel bodies s = None)
  ∧ (∀ s', rtc (steps_to jointKind bodies) s s' →
           newSkeleton s' = newSkeleton s ∧ sdfJoints s' = sdfJoints s).
Proof.
  intros Hr Hk Hcyc Hw. split.
  - intros fuel. revert s k Hr Hk Hcyc Hw.
    induction fuel as [|fuel IH]; intros s k Hr Hk Hcyc Hw; [done|].
    destruct (cycle_redirects s k Hr Hk Hcyc Hw)
      as (s' & p & Hs & Hit & Hp & Hj & Hsk).
    simpl. unfold steps_to in Hs. rewrite Hs.
    apply (IH s' p); [by eapply reachable_step|done|by rewrite Hj..].
  - intros s' Hs'. revert k Hr Hk Hcyc Hw.
    induction Hs' as [s|s s1 s2 Hs1 _ IH]; intros k Hr Hk Hcyc Hw; [done|].
    destruct (cycle_redirects s k Hr Hk Hcyc Hw)
      as (s1' & p & Hs & Hit & Hp & Hj & Hsk).
    assert (s1' = s1) as -> by (unfold steps_to in *; congruence).
    destruct (IH p) as [Hsk2 Hj2];
      [by eapply reachable_step|done|by rewrite Hj..|].
    split; congruence.
Qed.

(** *** Which BodyNodes there are *)

(** X4.  In every Skeleton the loop holds or returns, the BodyNodes
    bear pairwise different names and each is built from the link that
    the registry of links holds under its name: no link is built twice
    and nothing is built that is not a link of the model. *)
Theorem skeleton_of_distinct_links s :
  reachable s
  ∨ (∃ fuel e, assemble jointKind fuel links joints = Some (e, s)) →
  NoDup (getName <$> newSkeleton s)
  ∧ ∀ bn, bn ∈ newSkeleton s → bodies !! getName bn = Some (body bn).
Proof.
  intros Hs.
  assert (NoDup (getName <$> newSkeleton s)
          ∧ ∀ i bn, newSkeleton s !! i = Some bn →
                    node_ok bodies registry (newSkeleton s) (sdfJoints s) i bn)
    as [Hnd Hnodes].
  { destruct Hs as [Hr|(fuel & e & Ha)].
    - by destruct (reachable_Inv _ _ _ s Hr).
    - by destruct (returned_Inv _ _ _ _ _ _ Ha) as (_ & _ & ? & ?). }
  split; [done|]. intros bn (i & Hi)%list_elem_of_lookup.
  by destruct (Hnodes i bn Hi).
Qed.

(** Every BodyNode is the child of a registered joint or a parent that
    a registered joint names. *)
Lemma built_for_a_joint s :
  reachable s →
  ∀ bn, bn ∈ newSkeleton s →
        is_Some (registry !! getName bn)
        ∨ named_parent registry (getName bn).
Proof.
  revert s.
  apply (rtc_ind_r (λ s, ∀ bn, bn ∈ newSkeleton s →
                               is_Some (registry !! getName bn)
                               ∨ named_parent registry (getName bn)) init).
  { intros bn Hbn. by apply not_elem_of_nil in Hbn. }
  intros s1 s2 Hr1 Hs IH.
  pose proof (reachable_Inv _ _ _ s1 Hr1) as HI.
  pose proof (Inv_step_spec jointKind _ _ s1 HI) as Hspec.
  unfold steps_to in Hs. rewrite Hs in Hspec.
  inversion Hspec as
    [ | | k cur s0 Hk Hcur Hnr Hpj Hit' Hsk' Hj'
      | k cur rootNode nt jk s0 Hk Hcur Hnr Hpn Hb Hit' Hj' Hsk'
      | k cur childNode nt jk s0 Hk Hcur Hr' Hb Hit' Hj' Hsk' ]; subst s0;
    rewrite Hsk'; [done| |];
    pose proof (lookup_weaken _ _ _ _ Hcur (inv_pending _ _ _ HI)) as Hreg;
    intros bn [Hbn|Hbn]%elem_of_app; [by apply IH| |by apply IH|];
    apply list_elem_of_singleton in Hbn as ->; unfold getName; simpl.
  - right. rewrite (readAllBodyNodes_key _ _ _ Hb).
    split_and!; [| |by exists k, cur].
    + intros Hw. apply Hnr. right. by left.
    + intros He. apply Hnr. right. by right.
  - left. rewrite (readAllBodyNodes_key _ _ _ Hb).
    rewrite (collectJoints_key _ _ _ Hreg). eauto.
Qed.

(** X5.  A BodyNode of a returned Skeleton is named after the child of
    a registered joint, or after a link that has no registered joint of
    its own and that a registered joint names as its parent; after an
    assembly that ran to its end the Skeleton holds exactly these.  A
    link that no registered joint mentions is therefore never built, and
    a model without registered joints yields an empty Skeleton whatever
    its links. *)
Theorem skeleton_members fuel e s :
  assemble jointKind fuel links joints = Some (e, s) →
  (∀ n, n ∈ getName <$> newSkeleton s →
        is_Some (registry !! n)
        ∨ (registry !! n = None ∧ named_parent registry n))
  ∧ (e = LoopEnd →
     ∀ n, is_Some (registry !! n) ∨ named_parent registry n →
          n ∈ getName <$> newSkeleton s)
  ∧ (registry = ∅ → newSkeleton s = []).
Proof.
  intros Ha.
  pose proof (returned_Inv _ _ _ _ _ _ Ha) as (_ & Hbuilt & Hnd & Hnodes).
  assert (∀ n, n ∈ getName <$> newSkeleton s →
               is_Some (registry !! n)
               ∨ (registry !! n = None ∧ named_parent registry n)) as Hmem.
  { destruct (assemble_returns _ _ _ _ _ _ Ha) as (s0 & Hr & Hsk & _).
    intros n (bn & -> & Hbn)%list_elem_of_fmap. rewrite Hsk in Hbn.
    destruct (built_for_a_joint s0 Hr bn Hbn) as [?|?]; [by left|].
    destruct (registry !! getName bn) eqn:E; [left; eauto|by right]. }
  split_and!; [done| |].
  - intros -> n Hn.
    destruct (assemble_returns _ _ _ _ _ _ Ha) as (s0 & _ & _ & _ & _ & Hempty).
    assert (∀ k, is_Some (registry !! k) → k ∈ getName <$> newSkeleton s)
      as Hkeys.
    { intros k Hk. apply Hbuilt; [done|]. by rewrite Hempty, lookup_empty. }
    destruct Hn as [Hn|(Hw & He & c & j & Hc & Hp)]; [by apply Hkeys|].
    destruct (proj1 (name_in_skeleton (newSkeleton s) c))
      as (ic & bc & Hic & Hbc); [apply Hkeys; eauto|].
    destruct (Hnodes ic bc Hic) as (_ & Hpar & Hor). rewrite Hbc in Hor.
    destruct Hor as [(Hjc & _ & Hroot)|(? & _)]; [|congruence].
    assert (joint bc = j) as Hj by congruence.
    destruct (parentBodyNode bc) as [p|] eqn:Epar.
    2:{ destruct (Hroot eq_refl); congruence. }
    destruct (Hpar p eq_refl) as (_ & pb & Hpb & Hpn).
    apply name_in_skeleton. exists p, pb. split; [done|]. congruence.
  - intros Hempty. destruct (newSkeleton s) as [|bn sk] eqn:Esk; [done|].
    destruct (Hmem (getName bn)) as [[j Hj]|(_ & _ & _ & c & j & Hj & _)].
    + rewrite fmap_cons. apply elem_of_cons. by left.
    + by rewrite Hempty, lookup_empty in Hj.
    + by rewrite Hempty, lookup_empty in Hj.
Qed.
(** *** The parent a pair is attached to *)

(** The parent of a BodyNode built from a registered joint is what the
    Skeleton before it gives for the parent name of that joint. *)
Lemma parent_is_lookup s :
  reachable s →
  ∀ i bn, newSkeleton s !! i = Some bn →
          registry !! getName bn = Some (joint bn) →
          parentBodyNode bn
          = getBodyNode (take i (newSkeleton s)) (parentName (joint bn)).
Proof.
  revert s.
  apply (rtc_ind_r
           (λ s, ∀ i bn, newSkeleton s !! i = Some bn →
                         registry !! getName bn = Some (joint bn) →
                         parentBodyNode bn
                         = getBodyNode (take i (newSkeleton s))
                             (parentName (joint bn))) init).
  { intros i bn Hi. simpl in Hi. by rewrite lookup_nil in Hi. }
  intros s1 s2 Hr1 Hs IH.
  pose proof (reachable_Inv _ _ _ s1 Hr1) as HI.
  pose proof (Inv_step_spec jointKind _ _ s1 HI) as Hspec.
  unfold steps_to in Hs. rewrite Hs in Hspec.
  inversion Hspec as
    [ | | k cur s0 Hk Hcur Hnr Hpj Hit' Hsk' Hj'
      | k cur rootNode nt jk s0 Hk Hcur Hnr Hpn Hb Hit' Hj' Hsk'
      | k cur childNode nt jk s0 Hk Hcur Hr' Hb Hit' Hj' Hsk' ]; subst s0;
    rewrite Hsk'; [done| |];
    intros i bn [[Hlt Hi]|[-> <-]]%lookup_snoc_Some Hreg.
  - rewrite take_app_le by lia. by apply IH.
  - exfalso. unfold getName in Hreg. simpl in Hreg.
    apply collectJoints_key in Hreg. simpl in Hreg.
    rewrite (readAllBodyNodes_key _ _ _ Hb) in Hreg.
    apply Hnr. right. by right.
  - rewrite take_app_le by lia. by apply IH.
  - simpl. by rewrite take_app_length.
Qed.

(** X6.  A BodyNode built from a registered joint is attached to the
    BodyNode that bears the parent name of the joint whenever there is
    one before it in the Skeleton, also when that name is "world" or
    empty, and has no parent otherwise; a parent name "world" or an
    empty one makes a root only when no earlier BodyNode is called so. *)
Theorem parent_is_the_named_node s i bn :
  reachable s
  ∨ (∃ fuel e, assemble jointKind fuel links joints = Some (e, s)) →
  newSkeleton s !! i = Some bn →
  registry !! getName bn = Some (joint bn) →
  parentBodyNode bn
  = getBodyNode (take i (newSkeleton s)) (parentName (joint bn))
  ∧ (∀ q pb, q < i → newSkeleton s !! q = Some pb →
             getName pb = parentName (joint bn) →
             parentBodyNode bn = Some q)
  ∧ (parentBodyNode bn = None →
     parentName (joint bn) ∉ getName <$> take i (newSkeleton s)).
Proof.
  intros Hs Hi Hreg.
  assert (∃ s0, reachable s0 ∧ newSkeleton s = newSkeleton s0)
    as (s0 & Hr & Hsk).
  { destruct Hs as [Hr|(fuel & e & Ha)]; [by exists s|].
    destruct (assemble_returns _ _ _ _ _ _ Ha) as (s0 & Hr & Hsk & _).
    by exists s0. }
  rewrite Hsk in *.
  pose proof (parent_is_lookup s0 Hr i bn Hi Hreg) as Hpar.
  split_and!; [done| |].
  - intros q pb Hq Hpb Hn. rewrite Hpar.
    destruct (getBodyNode_is_Some (take i (newSkeleton s0))
                (parentName (joint bn))) as [q' Hq'].
    { rewrite <-Hn. apply list_elem_of_fmap. exists pb. split; [done|].
      apply list_elem_of_lookup. exists q. by rewrite lookup_take_lt. }
    rewrite Hq'. f_equal.
    apply getBodyNode_Some in Hq' as (pb' & Hpb' & Hn').
    apply lookup_take_Some in Hpb' as [Hpb' _].
    eapply (unique_name (newSkeleton s0)); eauto; [|congruence].
    apply (inv_nodup _ _ _ (reachable_Inv _ _ _ s0 Hr)).
  - intros Hnone. apply getBodyNode_None. congruence.
Qed.

(** *** What an iteration leaves in place *)

(** X7.  The loop only appends to the Skeleton and only erases from the
    registry of pending joints: the Skeleton of a state is a prefix of
    that of every later state, whose pending joints are among the
    earlier ones, and an iteration appends at most one BodyNode and
    erases at most one joint. *)
Theorem loop_appends_and_erases s s' :
  reachable s → rtc (steps_to jointKind bodies) s s' →
  newSkeleton s `prefix_of` newSkeleton s'
  ∧ sdfJoints s' ⊆ sdfJoints s
  ∧ (steps_to jointKind bodies s s' →
     length (newSkeleton s') ≤ S (length (newSkeleton s))
     ∧ size (sdfJoints s) ≤ S (size (sdfJoints s'))).
Proof.
  intros Hr Hs.
  assert (∀ x y, reachable x → steps_to jointKind bodies x y →
            (newSkeleton y = newSkeleton x
             ∨ ∃ bn, newSkeleton y = newSkeleton x ++ [bn])
            ∧ (sdfJoints y = sdfJoints x
               ∨ ∃ k, is_Some (sdfJoints x !! k)
                      ∧ sdfJoints y = delete k (sdfJoints x))) as Hone.
  { intros x y Hx Hxy.
    pose proof (reachable_Inv _ _ _ x Hx) as HI.
    pose proof (Inv_step_spec jointKind _ _ x HI) as Hspec.
    unfold steps_to in Hxy. rewrite Hxy in Hspec.
    inversion Hspec; subst; eauto 10. }
  split_and!.
  - clear Hone. induction Hs as [x|x y z Hxy Hyz IH]; [done|].
    etrans; [|apply IH; by eapply reachable_step].
    pose proof (reachable_Inv _ _ _ x Hr) as HI.
    pose proof (Inv_step_spec jointKind _ _ x HI) as Hspec.
    unfold steps_to in Hxy. rewrite Hxy in Hspec.
    inversion Hspec as
      [ | | ? ? ? _ _ _ _ _ Hsk' _ | ? ? ? ? ? ? _ _ _ _ _ _ _ Hsk'
        | ? ? ? ? ? ? _ _ _ _ _ _ Hsk' ]; subst; rewrite Hsk';
      [done|by apply prefix_app_r..].
  - apply (pending_shrinks jointKind links joints); [|done].
    by apply (reachable_Inv jointKind).
  - intros Hstep. destruct (Hone s s' Hr Hstep) as [Hsk Hj]. split.
    + destruct Hsk as [->|[bn ->]]; [lia|]. rewrite length_app. simpl. lia.
    + destruct Hj as [->|(k & Hk & ->)]; [lia|].
      rewrite map_size_delete_Some by done. lia.
Qed.
(** *** Inputs that assemble completely *)

Lemma buildable_cursor s k :
  buildable jointKind bodies registry → reachable s → it s = Some k →
  ∃ cur, sdfJoints s !! k = Some cur ∧ linked bodies cur
         ∧ is_Some (jointKind (type cur)).
Proof.
  intros (Hjoints & _) Hr Hk. pose proof (reachable_Inv _ _ _ s Hr) as HI.
  destruct (Inv_cursor _ _ s HI k Hk) as [cur Hcur]. exists cur.
  split; [done|]. apply (Hjoints k).
  by apply (lookup_weaken _ _ _ _ Hcur (inv_pending _ _ _ HI)).
Qed.

Lemma buildable_quiet s :
  buildable jointKind bodies registry → reachable s →
  dterr s = (readAllBodyNodes links).2 ++ (collectJoints joints).2.
Proof.
  intros Hb. revert s.
  apply (rtc_ind_r
           (λ s, dterr s
                 = (readAllBodyNodes links).2 ++ (collectJoints joints).2)
           init); [done|].
  intros s1 s2 Hr1 Hs IH. unfold steps_to in Hs.
  destruct (it s1) as [k|] eqn:Ek.
  2:{ unfold step in Hs. by rewrite Ek in Hs. }
  destruct (buildable_cursor s1 k Hb Hr1 Ek) as (cur & Hcur & Hl & _).
  pose proof (step_linked jointKind bodies s1 k cur Ek Hcur Hl) as Hstep.
  rewrite Hs in Hstep. congruence.
Qed.

(** X8.  When no chain of parent names is cyclic, every registered
    joint has its child among the links and its parent there too (or
    names the world or nothing), every link is rigid or soft, and the
    pair factory accepts the types of the joints and the type "free",
    the loop runs to its end: it returns with an empty registry without
    having reported anything. *)
Theorem buildable_input_completes :
  acyclic registry → buildable jointKind bodies registry →
  ∃ s, assemble jointKind (size registry * (size registry + 1) + 1)
         links joints = Some (LoopEnd, s)
       ∧ sdfJoints s = ∅
       ∧ dterr s = (readAllBodyNodes links).2 ++ (collectJoints joints).2.
Proof.
  intros Hac Hb.
  destruct (loop_terminates jointKind links joints (size registry) init)
    as [[e s] Ha]; [apply Inv_init|done|done|].
  destruct (loop_returns _ _ _ _ _ _ Ha) as (s0 & Hr & Hs0).
  destruct (it s0) as [k|] eqn:Ek.
  - exfalso.
    destruct (buildable_cursor s0 k Hb Hr Ek) as (cur & Hcur & Hl & Hty).
    pose proof (step_linked jointKind bodies s0 k cur Ek Hcur Hl) as Hstep.
    rewrite Hs0 in Hstep.
    destruct Hstep as (_ & parent & newJoint & newBody & d & Hcp & _ & Hor).
    destruct Hb as (_ & Hlinks & Hfree).
    destruct (createPair_accepts jointKind (newSkeleton s0) parent
                newJoint newBody) as [sk Hsk]; [| |congruence].
    + destruct Hor as [[_ Hnb]|[_ Hnb]]; by eapply Hlinks.
    + by destruct Hor as [[-> _]|[-> _]].
  - unfold step in Hs0. rewrite Ek in Hs0. injection Hs0 as <- <-.
    exists s0. split_and!; [exact Ha| |by apply buildable_quiet].
    pose proof (inv_it _ _ _ (reachable_Inv _ _ _ s0 Hr)) as Hit.
    by rewrite Ek in Hit.
Qed.
End AssemblyExtras.

(** ** More on joints read from a file *)

Section FileExtras.
Context {T : Type} `{!Isometry T}.
Variable jointKind : string → option JointKind.
Implicit Types (e : @JointElement T) (j : SDFJoint T).

(** X9.  A record that [readJoint] returns has one of the five type
    tags it tests for, and the name and the type of its element; unless
    the type is "ball" the element has an [<axis>], and for "revolute2"
    an [<axis2>] as well.  Its parent name is never "world": for a
    [<parent>] "world" both names of the record are empty, and otherwise
    they are the [<parent>] and the [<child>] of the element, both
    links.  The [<child>] has to be a link in either case. *)
Theorem readJoint_returns e (sdfBodyNodes : BodyMap T) j :
  readJoint e sdfBodyNodes = Ok j →
  type j = je_type e
  ∧ je_type e ∈ ["prismatic"; "revolute"; "screw"; "revolute2"; "ball"]
  ∧ (je_type e ≠ "ball" → je_axis e = true)
  ∧ (je_type e = "revolute2" → je_axis2 e = true)
  ∧ mName (properties j) = je_name e
  ∧ parentName j ≠ "world"
  ∧ (∃ c, je_child e = Some c ∧ is_Some (sdfBodyNodes !! c))
  ∧ ((je_parent e = Some "world" ∧ parentName j = "" ∧ childName j = "")
     ∨ (je_parent e = Some (parentName j)
        ∧ je_child e = Some (childName j)
        ∧ is_Some (sdfBodyNodes !! parentName j)
        ∧ is_Some (sdfBodyNodes !! childName j))).
Proof.
  unfold readJoint. destruct (decide (je_type e = "")); [done|]. simpl.
  assert (∀ k, readJointProperties e = Ok (Some k) →
            je_type e ∈ ["prismatic"; "revolute"; "screw"; "revolute2"; "ball"]
            ∧ (je_type e ≠ "ball" → je_axis e = true)
            ∧ (je_type e = "revolute2" → je_axis2 e = true))
    as Hfive.
  { unfold readJointProperties. intros k.
    repeat case_decide; try done;
      destruct (je_axis e), (je_axis2 e); try done; intros _;
      (split; [set_solver|split; congruence]). }
  destruct (je_parent e) as [p|]; [|done].
  case_decide as Hw; simpl.
  - destruct (sdfBodyNodes !! p) as [pb|] eqn:Ep; [|done]. simpl.
    destruct (je_child e) as [c|]; [|done].
    destruct (sdfBodyNodes !! c) as [cb|] eqn:Ec; [|done]. simpl.
    destruct (readJointProperties e) as [[k|]| |] eqn:Epr; simpl; [|done..].
    destruct (Hfive k eq_refl) as (? & ? & ?).
    intros [= <-]. simpl.
    split_and!; [done..|eauto|right; split_and!; eauto].
  - subst p.
    destruct (je_child e) as [c|]; [|done].
    destruct (sdfBodyNodes !! c) as [cb|] eqn:Ec; [|done]. simpl.
    destruct (readJointProperties e) as [[k|]| |] eqn:Epr; simpl; [|done..].
    destruct (Hfive k eq_refl) as (? & ? & ?).
    intros [= <-]. simpl.
    split_and!; [done..|eauto|by left].
Qed.

(** A record with a child name has come out of [readJoint] with both
    its links checked. *)
Lemma readJoint_linked e (sdfBodyNodes : BodyMap T) j :
  readJoint e sdfBodyNodes = Ok j → childName j ≠ "" →
  linked sdfBodyNodes j.
Proof.
  unfold readJoint, linked. destruct (decide (je_type e = "")); [done|]. simpl.
  destruct (je_parent e) as [p|]; [|done].
  case_decide as Hw; simpl.
  - destruct (sdfBodyNodes !! p) as [pb|] eqn:Ep; [|done]. simpl.
    destruct (je_child e) as [c|]; [|done].
    destruct (sdfBodyNodes !! c) as [cb|] eqn:Ec; [|done]. simpl.
    destruct (readJointProperties e) as [[k|]| |]; simpl; [|done..].
    intros [= <-] _. simpl. eauto.
  - destruct (je_child e) as [c|]; [|done].
    destruct (sdfBodyNodes !! c) as [cb|]; [|done]. simpl.
    destruct (readJointProperties e) as [[k|]| |]; simpl; [|done..].
    by intros [= <-].
Qed.

Lemma readAllJoints_from_inv acc (elems : list (@JointElement T))
    (sdfBodyNodes : BodyMap T) r :
  readAllJoints_from acc elems sdfBodyNodes = Ok r →
  ∃ js, Forall2 (λ e j, readJoint e sdfBodyNodes = Ok j) elems js
        ∧ r = foldl addJoint acc js.
Proof.
  revert acc. induction elems as [|e elems IH]; intros acc; simpl.
  - intros [= <-]. exists []. by split.
  - destruct (readJoint e sdfBodyNodes) as [j| |] eqn:Ej; [|done..]. simpl.
    intros (js & Hjs & ->)%IH. exists (j :: js). split; [|done].
    by constructor.
Qed.

Lemma readAllBodyNodes_reports (links : list (SDFBodyNode T)) :
  Forall (λ d, missing_report d = false) (readAllBodyNodes links).2.
Proof.
  induction links as [|x links IH] using rev_ind; [constructor|].
  rewrite readAllBodyNodes_snoc. unfold addBodyNode.
  destruct (_ !! body_mName x); simpl; [|done].
  apply Forall_app. split; [done|]. by repeat constructor.
Qed.

Lemma collectJoints_reports (js : list (SDFJoint T)) :
  Forall (λ d, missing_report d = false) (collectJoints js).2.
Proof.
  induction js as [|x js IH] using rev_ind; [constructor|].
  rewrite collectJoints_snoc. unfold addJoint.
  case_decide; simpl.
  - apply Forall_app. split; [done|]. by repeat constructor.
  - destruct (_ !! childName x); simpl; [|done].
    apply Forall_app. split; [done|]. by repeat constructor.
Qed.

Lemma createPair_None_report (skeleton : Skeleton T) parent
    (newJoint : SDFJoint T) (newBody : SDFBodyNode T) d :
  createPair jointKind skeleton parent newJoint newBody = (None, [d]) →
  (∃ t, d = UnsupportedLinkType t) ∨ (∃ t, d = UnsupportedJointType t).
Proof.
  unfold createPair, createJointAndNodePair. intros Hc.
  repeat case_decide; destruct (jointKind (type newJoint));
    simplify_eq; eauto.
Qed.

(** X10.  For a model whose joints all came through [readJoint], the
    loop never reports a parent or a child link it cannot find: the
    checks in [readJoint] have made those two exits dead.  It is left by
    [break] only after the pair factory has refused the type of a link
    or of a joint, and that report is then the last one. *)
Theorem file_joints_find_their_links fuel (m : @ModelElement T)
    (ex : Exit) (s : @LoopState T) :
  readSkeleton jointKind fuel m = Ok (Some (ex, s)) →
  Forall (λ d, missing_report d = false) (dterr s)
  ∧ (ex = LoopBreak →
     ∃ reports d, dterr s = reports ++ [d]
                  ∧ ((∃ t, d = UnsupportedLinkType t)
                     ∨ (∃ t, d = UnsupportedJointType t))).
Proof.
  unfold readSkeleton, readAllJoints.
  destruct (readAllJoints_from _ _ _) as [r| |] eqn:Er; simpl; [|done..].
  apply readAllJoints_from_inv in Er as (js & Hjs & ->).
  intros [= Hl].
  set (bodies := (readAllBodyNodes (links m)).1) in *.
  change (foldl addJoint (∅, []) js) with (collectJoints js) in Hl.
  assert (∀ k j, (collectJoints js).1 !! k = Some j → linked bodies j)
    as Hlinked.
  { intros k j Hkj. pose proof (collectJoints_key _ _ _ Hkj) as Hck.
    assert (k ≠ "") as Hk
      by (intros ->; by rewrite collectJoints_empty_key in Hkj).
    rewrite collectJoints_lookup in Hkj by done.
    apply fmap_Some in Hkj as ([i j'] & Hf & ->).
    apply list_find_Some in Hf as (Hi & _). simpl in *.
    destruct (Forall2_lookup_r _ _ _ _ _ Hjs Hi) as (el & _ & Hel).
    eapply readJoint_linked; [exact Hel|congruence]. }
  destruct (loop_returns _ _ _ _ _ _ Hl) as (s0 & Hr & Hs0).
  assert (∀ x, rtc (steps_to jointKind bodies)
                 (initState (collectJoints js).1
                    ((readAllBodyNodes (links m)).2 ++ (collectJoints js).2)) x →
               Forall (λ d, missing_report d = false) (dterr x)
               ∧ ∀ k, it x = Some k →
                      ∃ cur, sdfJoints x !! k = Some cur ∧ linked bodies cur)
    as Hinv.
  { intros x Hx. split.
    - revert x Hx. apply rtc_ind_r.
      + simpl. apply Forall_app. split;
          [apply readAllBodyNodes_reports|apply collectJoints_reports].
      + intros s1 s2 Hr1 Hs IH. unfold steps_to in Hs.
        destruct (it s1) as [k|] eqn:Ek.
        2:{ unfold step in Hs. by rewrite Ek in Hs. }
        pose proof (reachable_Inv jointKind (links m) js s1 Hr1) as HI.
        destruct (Inv_cursor _ _ s1 HI k Ek) as [cur Hcur].
        pose proof (step_linked jointKind bodies s1 k cur Ek Hcur) as Hstep.
        rewrite Hs in Hstep. rewrite Hstep; [done|].
        apply (Hlinked k).
        by apply (lookup_weaken _ _ _ _ Hcur (inv_pending _ _ _ HI)).
    - intros k Hk.
      pose proof (reachable_Inv jointKind (links m) js x Hx) as HI.
      destruct (Inv_cursor _ _ x HI k Hk) as [cur Hcur]. exists cur.
      split; [done|]. apply (Hlinked k).
      by apply (lookup_weaken _ _ _ _ Hcur (inv_pending _ _ _ HI)). }
  destruct (Hinv s0 Hr) as [Hquiet Hcursor].
  destruct (it s0) as [k|] eqn:Ek.
  - destruct (Hcursor k eq_refl) as (cur & Hcur & Hl').
    pose proof (step_linked jointKind bodies s0 k cur Ek Hcur Hl') as Hstep.
    rewrite Hs0 in Hstep.
    destruct Hstep as (-> & parent & newJoint & newBody & d & Hcp & Hd & _).
    apply createPair_None_report in Hcp. split.
    + rewrite Hd. apply Forall_app. split; [done|].
      constructor; [|done]. by destruct Hcp as [[t ->]|[t ->]].
    + intros _. by exists (dterr s0), d.
  - unfold step in Hs0. rewrite Ek in Hs0. injection Hs0 as <- <-.
    split; [done|]. done.
Qed.
End FileExtras.

(** ** Worlds and files *)

Section WorldExtras.
Context {T : Type} `{!Isometry T}.
Variable jointKind : string → option JointKind.
Variable openXMLFile : string → option (@XMLDocument T).

Lemma readSkeletons_each fuel (ms : list (@ModelElement T)) sks d :
  readSkeletons jointKind fuel ms = Ok (Some (sks, d)) →
  Forall2 (λ m sk, ∃ ex s, readSkeleton jointKind fuel m = Ok (Some (ex, s))
                           ∧ sk = newSkeleton s) ms sks.
Proof.
  revert sks d. induction ms as [|m ms IH]; intros sks d; simpl.
  - intros [= <- <-]. constructor.
  - destruct (readSkeleton jointKind fuel m) as [[[ex s]|]| |] eqn:Er;
      [|done..].
    simpl.
    destruct (readSkeletons jointKind fuel ms) as [rs| |] eqn:Ers; [|done..].
    simpl. destruct rs as [[sks' d']|]; [|done]. simpl.
    intros [= <- <-]. constructor; [eauto|]. by eapply IH.
Qed.

(** X11.  [readWorld] never returns a null World: when it returns, the
    World bears the name of the [<world>] element and holds one Skeleton
    for each [<model>], in order, each being what [readSkeleton]
    returned for that model, whether its loop ran to the end or was left
    by [break]. *)
Theorem readWorld_adds_every_model fuel (w : @WorldElement T) r :
  readWorld jointKind fuel w = Ok (Some r) →
  ∃ W, returned r = Some W
       ∧ getName_world W = world_name w
       ∧ Forall2 (λ m sk, ∃ ex s,
                    readSkeleton jointKind fuel m = Ok (Some (ex, s))
                    ∧ sk = newSkeleton s)
           (world_models w) (skeletons W).
Proof.
  unfold readWorld.
  destruct (readSkeletons jointKind fuel (world_models w))
    as [[[sks d]|]| |] eqn:Es; simpl; [|done..].
  intros [= <-]. simpl. eexists. split_and!; [done..|].
  by eapply readSkeletons_each.
Qed.

Lemma readWorld_not_null fuel (w : @WorldElement T) r :
  readWorld jointKind fuel w = Ok (Some r) → is_Some (returned r).
Proof.
  unfold readWorld.
  destruct (readSkeletons jointKind fuel (world_models w))
    as [[[sks d]|]| |]; simpl; [|done..].
  intros [= <-]. simpl. eauto.
Qed.

(** X12.  When [readSdfFile] returns, the pointer is null in exactly
    four cases: the file does not open, it has no [<sdf>] element, the
    version is neither "1.4" nor "1.5", or there is no [<world>]; the
    file-name overload of [readSkeleton] likewise, with [<model>] for
    [<world>]. *)
Theorem readSdfFile_null fuel _filename :
  (∀ r, readSdfFile jointKind openXMLFile fuel _filename = Ok (Some r) →
        (returned r = None ↔
         openXMLFile _filename = None
         ∨ ∃ doc, openXMLFile _filename = Some doc
                  ∧ (sdfElement doc = None
                     ∨ ∃ sdf, sdfElement doc = Some sdf
                              ∧ ((version sdf ≠ "1.4" ∧ version sdf ≠ "1.5")
                                 ∨ sdf_world sdf = None))))
  ∧ (∀ r, readSkeleton_file jointKind openXMLFile fuel _filename
          = Ok (Some r) →
          (returned r = None ↔
           openXMLFile _filename = None
           ∨ ∃ doc, openXMLFile _filename = Some doc
                    ∧ (sdfElement doc = None
                       ∨ ∃ sdf, sdfElement doc = Some sdf
                                ∧ ((version sdf ≠ "1.4"
                                    ∧ version sdf ≠ "1.5")
                                   ∨ sdf_model sdf = None)))).
Proof.
  split; intros r; unfold readSdfFile, readSkeleton_file.
  - destruct (openXMLFile _filename) as [doc|]; [|intros [= <-]; naive_solver].
    destruct (sdfElement doc) as [sdf|] eqn:Esdf;
      [|intros [= <-]; naive_solver].
    destruct (bool_decide _ && _) eqn:Ev.
    { apply andb_true_iff in Ev. destruct Ev as [H1 H2].
      apply bool_decide_eq_true in H1, H2.
      intros [= <-]. naive_solver. }
    apply andb_false_iff in Ev.
    assert (¬ (version sdf ≠ "1.4" ∧ version sdf ≠ "1.5")) as Hv.
    { intros [H1 H2]. destruct Ev as [Ev|Ev];
        apply bool_decide_eq_false in Ev; by destruct Ev. }
    destruct (sdf_world sdf) as [w|] eqn:Ew; [|intros [= <-]; naive_solver].
    intros [W HW]%readWorld_not_null. rewrite HW.
    split; [done|]. intros [?|(doc' & [= <-] & [?|(sdf' & ? & [?|?])])];
      simplify_eq; done.
  - destruct (openXMLFile _filename) as [doc|]; [|intros [= <-]; naive_solver].
    destruct (sdfElement doc) as [sdf|] eqn:Esdf;
      [|intros [= <-]; naive_solver].
    destruct (bool_decide _ && _) eqn:Ev.
    { apply andb_true_iff in Ev. destruct Ev as [H1 H2].
      apply bool_decide_eq_true in H1, H2.
      intros [= <-]. naive_solver. }
    apply andb_false_iff in Ev.
    assert (¬ (version sdf ≠ "1.4" ∧ version sdf ≠ "1.5")) as Hv.
    { intros [H1 H2]. destruct Ev as [Ev|Ev];
        apply bool_decide_eq_false in Ev; by destruct Ev. }
    destruct (sdf_model sdf) as [w|] eqn:Ew; [|intros [= <-]; naive_solver].
    destruct (readSkeleton jointKind fuel w) as [[[ex s]|]| |]; simpl;
      [|done..].
    intros [= <-]. simpl.
    split; [done|]. intros [?|(doc' & [= <-] & [?|(sdf' & ? & [?|?])])];
      simplify_eq; done.
Qed.
End WorldExtras.

(** ** More on the inertia of a link *)

Section InertialExtras.
Context {double T Shape : Type}.
Variable computeInertia : Shape → double → @Matrix3d double.
Variable translation : T → double * double * double.
Implicit Types (e : @LinkElement double T Shape) (fresh : @Inertia double).

(** X13.  For a link with an [<inertial>] element, the mass and the
    centre of mass are those declared there, or else the default ones,
    whatever the shapes and the moments are; and declared moments are
    taken as they are, whatever the visual shapes: a shape is asked for
    its inertia only in their absence. *)
Theorem readBodyNode_inertial fresh e ie :
  le_inertial e = Some ie →
  let inertia := mInertia (readBodyNode computeInertia translation fresh e) in
  getMass inertia = default (getMass fresh) (ie_mass ie)
  ∧ getLocalCOM inertia
    = default (getLocalCOM fresh) (translation <$> ie_pose ie)
  ∧ (∀ moi, ie_inertia ie = Some moi → getMoment inertia = moi).
Proof.
  intros Hie. unfold readBodyNode. simpl. rewrite Hie. unfold readInertial.
  split_and!.
  - destruct (ie_mass ie), (ie_pose ie), (ie_inertia ie),
      (pushShapes (le_visual e)); done.
  - destruct (ie_mass ie), (ie_pose ie), (ie_inertia ie),
      (pushShapes (le_visual e)); done.
  - intros moi ->. destruct (ie_mass ie), (ie_pose ie); done.
Qed.
End InertialExtras.

(** ** Shapes *)

Section ShapeExtras.
Context {double T Scene : Type}.
Variables (mul : double → double → double) (two thin : double).
Variable loadMesh : string → option Scene.
Implicit Types (e : @ShapeElement double T) (g : @GeometryElement double).

Local Abbreviation readShape' := (readShape mul two thin loadMesh).

(** X14.  For an element with a [<geometry>]: [readShape] returns a
    null shape exactly when the geometry is of none of the five known
    kinds, or when it is a mesh that does not load and the element has
    no [<pose>]; when the mesh does not load and there is a [<pose>],
    the pose is set through the null pointer.  A shape that is returned
    carries the pose of the element and comes without a report. *)
Theorem readShape_null e g _skelPath :
  se_geometry e = Some g →
  (readShape' e _skelPath = NullDereference ↔
   is_Some (se_pose e) ∧ ∃ uri, mesh_fails loadMesh g _skelPath uri)
  ∧ (∀ out, readShape' e _skelPath = Ok (None, out) ↔
       (no_geometry g ∧ out = [InvalidShapeType])
       ∨ (se_pose e = None
          ∧ ∃ uri, mesh_fails loadMesh g _skelPath uri
                   ∧ out = [FailToLoadModel uri]))
  ∧ (∀ shape out, readShape' e _skelPath = Ok (Some shape, out) →
       localTransform shape = se_pose e ∧ out = [])
  ∧ readShape' e _skelPath ≠ AssertFailed.
Proof.
  intros Hg. unfold readShape, no_geometry, mesh_fails. rewrite Hg.
  destruct (g_box g) as [size|]; [|destruct (g_sphere g) as [radius|]];
    [| |destruct (g_cylinder g) as [[radius height]|]];
    [| | |destruct (g_plane g) as [visSize|]];
    [| | | |destruct (g_mesh g) as [[uri scale]|]];
    [| | | | |destruct (se_pose e); naive_solver].
  1-4: destruct (se_pose e); simpl; split_and!; try naive_solver.
  destruct (loadMesh (_skelPath +:+ uri)) eqn:El.
  - destruct (se_pose e); simpl; split_and!; try naive_solver.
  - destruct (se_pose e); simpl; split_and!; naive_solver.
Qed.

(** X15.  One visual or collision mesh that does not load, on an
    element with a [<pose>], stops the reading of all the shapes of the
    link, provided every element has its [<geometry>]: the null
    dereference in [readShape] is not caught by the loop that calls
    it. *)
Theorem failed_mesh_with_pose_stops_link (elems : list (@ShapeElement double T))
    e g _skelPath uri :
  Forall (λ e', is_Some (se_geometry e')) elems →
  e ∈ elems → se_geometry e = Some g → is_Some (se_pose e) →
  mesh_fails loadMesh g _skelPath uri →
  readShapes mul two thin loadMesh elems _skelPath = NullDereference.
Proof.
  intros Hall Hin Hg Hpose Hfail.
  assert (readShape' e _skelPath = NullDereference) as Hcrash.
  { unfold readShape. rewrite Hg.
    destruct Hfail as (-> & -> & -> & -> & [scale ->] & ->).
    by destruct Hpose as [W ->]. }
  assert (∀ e', is_Some (se_geometry e') →
                readShape' e' _skelPath ≠ AssertFailed) as Hno.
  { intros e' [g' Hg']. unfold readShape. rewrite Hg'.
    repeat (case_match; simplify_eq; try done). }
  induction elems as [|x elems IH]; [by apply not_elem_of_nil in Hin|].
  apply Forall_cons in Hall as [Hx Hall]. simpl.
  apply elem_of_cons in Hin as [<-|Hin].
  - by rewrite Hcrash.
  - specialize (IH Hall Hin).
    destruct (readShape' x _skelPath) as [r| |] eqn:Ex; simpl;
      [by rewrite IH| |done].
    by destruct (Hno x Hx).
Qed.
End ShapeExtras.

(** ** Links read as rigid or soft *)

Section SoftExtras.
Context {double T Soft : Type} `{!Isometry T}.
Variable makeBoxProperties :
  double * double * double → T → nat * nat * nat → double → Soft.
Variable makeEllipsoidProperties :
  double * double * double → double → double → double → Soft.
Variable makeCylinderProperties :
  double → double → double → double → double → double → Soft.
Variable defaultSoft : Soft.
Variables set_mKv set_mKe set_mDampCoeff : Soft → double → Soft.

Local Abbreviation readSoftBodyNode' :=
  (readSoftBodyNode makeBoxProperties makeEllipsoidProperties
     makeCylinderProperties defaultSoft set_mKv set_mKe set_mDampCoeff).

(** X16.  The record [readSoftBodyNode] returns has the name and the
    initial transform that [readBodyNode] gives the link, and the type
    "soft" exactly when the link has a [<soft_shape>], the empty type
    otherwise; a [<soft_shape>] of unknown geometry is reported and
    still gives a soft link.  [createPair] therefore never refuses a
    link read this way for its type: it appends the pair whenever the
    type of the joint is accepted. *)
Theorem readSoftBodyNode_type (e : @SoftLinkElement double T)
    (_skeletonFrame : T) :
  let r := readSoftBodyNode' e _skeletonFrame in
  body_mName (sdfBodyNode r) = sl_name e
  ∧ initTransform (sdfBodyNode r)
    = initTransform (readBodyNode_sdf e _skeletonFrame)
  ∧ (body_type (sdfBodyNode r) = "soft" ↔ is_Some (sl_soft_shape e))
  ∧ (body_type (sdfBodyNode r) = "" ↔ sl_soft_shape e = None)
  ∧ (is_Some (softProperties r) ↔ is_Some (sl_soft_shape e))
  ∧ (unknownSoftShape r = true → body_type (sdfBodyNode r) = "soft")
  ∧ (∀ jointKind (skeleton : Skeleton T) parent (newJoint : SDFJoint T) jk,
       jointKind (type newJoint) = Some jk →
       createPair jointKind skeleton parent newJoint (sdfBodyNode r)
       = (Some (skeleton
                ++ [{| node_type := if sl_soft_shape e is Some _
                                    then SoftBodyNode else RigidBodyNode;
                       joint_kind := jk; parentBodyNode := parent;
                       joint := newJoint; body := sdfBodyNode r |}]), [])).
Proof.
  assert (∀ jointKind (skeleton : Skeleton T) parent (newJoint : SDFJoint T)
            jk (b : SDFBodyNode T) nt,
            jointKind (type newJoint) = Some jk →
            (body_type b = "" ∧ nt = RigidBodyNode)
            ∨ (body_type b = "soft" ∧ nt = SoftBodyNode) →
            createPair jointKind skeleton parent newJoint b
            = (Some (skeleton
                     ++ [{| node_type := nt; joint_kind := jk;
                            parentBodyNode := parent;
                            joint := newJoint; body := b |}]), [])) as Hcp.
  { intros jointKind skeleton parent newJoint jk b nt Hjk Hb.
    unfold createPair, createJointAndNodePair. rewrite Hjk.
    destruct Hb as [[-> ->]|[-> ->]]; by repeat case_decide. }
  unfold readSoftBodyNode.
  destruct (sl_soft_shape e) as [softShapeEle|]; simpl.
  - split_and!; [done|done| | |done|done|].
    + split; [eauto|done].
    + split; [done|by intros [=]].
    + intros jointKind skeleton parent newJoint jk Hjk.
      apply Hcp; [done|by right].
  - split_and!; [done|done| | | |done|].
    + split; [done|by intros []].
    + done.
    + split; by intros [].
    + intros jointKind skeleton parent newJoint jk Hjk.
      apply Hcp; [done|by left].
Qed.
End SoftExtras.

(** ** Resolving URI references *)


Lemma dot_ne_slash : dot ≠ slash.
Proof. done. Qed.

Lemma startsWith_spec t p : startsWith t p = true ↔ ∃ r, t = p ++ r.
Proof.
  unfold startsWith. rewrite bool_decide_eq_true. split.
  - intros H. exists (drop (length p) t). by rewrite <- H at 1; rewrite take_drop.
  - intros [r ->]. by rewrite take_app_length.
Qed.

Lemma substr_app p r n : n = length p → substr (p ++ r) n = Some r.
Proof.
  intros ->. unfold substr. rewrite decide_True by (rewrite length_app; lia).
  by rewrite drop_app_length.
Qed.

Lemma find_first_of_1 c w rest :
  slash ∉ w → rest = [] ∨ head rest = Some slash →
  find_first_of (c :: w ++ rest) slash 1
  = if decide (rest = []) then None else Some (S (length w)).
Proof.
  intros Hw Hr. unfold find_first_of. simpl. rewrite drop_0.
  case_decide as E.
  - subst. rewrite app_nil_r.
    assert (list_find (λ x, x = slash) w = None) as ->; [|done].
    apply list_find_None, Forall_forall. intros x Hx ->. done.
  - destruct Hr as [?|Hr]; [done|]. destruct rest as [|x rest]; [done|].
    simpl in Hr. simplify_eq.
    assert (list_find (λ x, x = slash) (w ++ slash :: rest)
            = Some (length w, slash)) as ->; [|done].
    apply list_find_Some. split_and!; [by rewrite list_lookup_middle|done|].
    intros j y Hj Hlt ->. rewrite lookup_app_l in Hj by done.
    apply Hw. apply list_elem_of_lookup. eauto.
Qed.

Lemma first_segment (s : list ascii) :
  ∃ w rest, s = w ++ rest ∧ (slash ∉ w) ∧ (rest = [] ∨ head rest = Some slash).
Proof.
  induction s as [|x s (w & rest & -> & Hw & Hr)].
  - exists [], []. split_and!; [done|set_solver|by left].
  - destruct (decide (x = slash)) as [->|Hx].
    + exists [], (slash :: w ++ rest). split_and!; [done|set_solver|by right].
    + exists (x :: w), rest. split_and!; [done|set_solver|done].
Qed.

Lemma body_sound input output :
  input ≠ [] →
  ∃ i o, removeDotSegments_body input output = Some (i, o)
         ∧ body_spec input output i o.
Proof.
  intros Hne. unfold removeDotSegments_body.
  destruct (startsWith input [dot; dot; slash]) eqn:A1.
  { apply startsWith_spec in A1 as [r ->].
    rewrite (substr_app [dot; dot; slash] r 3) by done. simpl. eauto using body_spec. }
  destruct (startsWith input [dot; slash]) eqn:A2.
  { apply startsWith_spec in A2 as [r ->].
    rewrite (substr_app [dot; slash] r 2) by done. simpl. eauto using body_spec. }
  case_decide as B1; [eauto using body_spec|].
  destruct (startsWith input [slash; dot; slash]) eqn:B2.
  { apply startsWith_spec in B2 as [r ->].
    rewrite (substr_app [slash; dot; slash] r 3) by done. simpl. eauto using body_spec. }
  case_decide as C1; [eauto using body_spec|].
  destruct (startsWith input [slash; dot; dot; slash]) eqn:C2.
  { apply startsWith_spec in C2 as [r ->].
    rewrite (substr_app [slash; dot; dot; slash] r 4) by done. simpl.
    eauto using body_spec. }
  case_decide as D; [eauto using body_spec|].
  destruct input as [|c s]; [done|].
  destruct (first_segment s) as (w & rest & -> & Hw & Hr).
  assert (if decide (c = slash) then ¬ dot_segment w
          else ¬ dot_segment (c :: w)) as Hseg.
  { apply not_true_iff_false in A1, A2, B2, C2.
    rewrite startsWith_spec in A1, A2, B2, C2.
    case_decide as Hc.
    - subst c. intros [->| ->].
      + destruct Hr as [->|Hr]; [by apply B1|].
        destruct rest as [|x rest]; simplify_eq/=. apply B2. by eexists.
      + destruct Hr as [->|Hr]; [by apply C1|].
        destruct rest as [|x rest]; simplify_eq/=. apply C2. by eexists.
    - intros [[= -> ->]|[= -> ->]].
      + destruct Hr as [->|Hr]; [apply D; by left|].
        destruct rest as [|x rest]; simplify_eq/=. apply A2. by eexists.
      + destruct Hr as [->|Hr]; [apply D; by right|].
        destruct rest as [|x rest]; simplify_eq/=. apply A1. by eexists. }
  rewrite find_first_of_1 by done. destruct (decide (rest = [])) as [->|E].
  - rewrite app_nil_r in *. eexists _, _. split; [done|].
    eapply (body_E _ _ c w []); by rewrite ?app_nil_r.
  - change (c :: w ++ rest) with ((c :: w) ++ rest).
    rewrite (substr_app (c :: w) rest (S (length w))) by done. simpl.
    rewrite take_app_length.
    eexists _, _. split; [done|]. by eapply body_E.
Qed.

Lemma find_last_of_Some s c i :
  find_last_of s c = Some i → ∃ w, s = take i s ++ c :: w.
Proof.
  revert i. induction s as [|x s IH]; intros i; simpl; [done|].
  destruct (find_last_of s c) as [j|].
  - intros [= <-]. destruct (IH j eq_refl) as [w Hw]. exists w. simpl.
    by rewrite <- Hw.
  - case_decide; [|done]. intros [= <-]. subst. by exists s.
Qed.

Lemma remove_last_segment_length output :
  length (remove_last_segment output) ≤ length output.
Proof.
  unfold remove_last_segment. destruct (find_last_of output slash); simpl;
    [rewrite length_take|]; lia.
Qed.

Lemma body_spec_length input output i o :
  body_spec input output i o →
  length i < length input ∧ length i + length o ≤ length input + length output.
Proof.
  pose proof (remove_last_segment_length output).
  destruct 1 as [r ->|r ->| ->|r ->| ->|r ->|[->| ->]|c w rest -> _ _ _];
    simpl; rewrite ?length_app; simpl; rewrite ?length_app; lia.
Qed.

Lemma loop_invariant (I : list ascii → list ascii → Prop) :
  (∀ input output i o,
     I input output → body_spec input output i o → I i o) →
  ∀ fuel input output,
    length input ≤ fuel → I input output →
    ∃ r, removeDotSegments_loop fuel input output = Some r ∧ I [] r.
Proof.
  intros Hstep fuel. induction fuel as [|fuel IH]; intros input output Hlen HI.
  - destruct input; [|simpl in Hlen; lia]. simpl. eauto.
  - destruct input as [|c s]; [simpl; eauto|].
    destruct (body_sound (c :: s) output) as (i & o & Hb & Hs); [done|].
    simpl. rewrite Hb. simpl.
    apply IH; [|by eapply Hstep].
    apply body_spec_length in Hs. simpl in *. lia.
Qed.

Lemma segments_ne s : segments s ≠ [].
Proof.
  destruct s as [|c s]; [done|]. simpl.
  case_decide; [done|]. by destruct (segments s).
Qed.

Lemma segments_app_slash a b :
  segments (a ++ slash :: b) = segments a ++ segments b.
Proof.
  induction a as [|c a IH]; simpl.
  - by rewrite ?decide_True.
  - case_decide; [by rewrite IH|]. rewrite IH.
    pose proof (segments_ne a). by destruct (segments a).
Qed.

Lemma segments_noslash w : slash ∉ w → segments w = [w].
Proof.
  induction w as [|c w IH]; [done|]. intros Hw. simpl.
  rewrite decide_False by set_solver. rewrite IH by set_solver. done.
Qed.

Lemma dot_free_nil : dot_free [].
Proof. repeat constructor. by intros [?|?]. Qed.

Lemma dot_free_slash s : dot_free (slash :: s) ↔ dot_free s.
Proof.
  unfold dot_free. simpl. rewrite ?decide_True by done.
  rewrite Forall_cons. split; [by intros [_ ?]|].
  intros ?. split; [by intros [?|?]|done].
Qed.

Lemma dot_free_split w rest :
  slash ∉ w → rest = [] ∨ head rest = Some slash →
  dot_free (w ++ rest) ↔ ¬ dot_segment w ∧ dot_free rest.
Proof.
  intros Hw [->|Hr].
  - rewrite app_nil_r. unfold dot_free at 1. rewrite segments_noslash by done.
    rewrite Forall_singleton. pose proof dot_free_nil. tauto.
  - destruct rest as [|x rest]; simplify_eq/=.
    rewrite dot_free_slash. unfold dot_free.
    rewrite segments_app_slash, (segments_noslash w) by done. simpl.
    by rewrite Forall_cons.
Qed.

Lemma dot_free_snoc output w :
  slash ∉ w → dot_free output → ¬ dot_segment w →
  dot_free (output ++ slash :: w).
Proof.
  intros Hw Ho Hd. unfold dot_free.
  rewrite segments_app_slash, (segments_noslash w) by done.
  apply Forall_app. split; [exact Ho|]. by apply Forall_singleton.
Qed.

Lemma dot_free_remove_last output :
  dot_free output → dot_free (remove_last_segment output).
Proof.
  unfold remove_last_segment.
  destruct (find_last_of output slash) as [i|] eqn:E; [|intros _; apply dot_free_nil].
  apply find_last_of_Some in E as [w Hw]. unfold dot_free.
  rewrite Hw at 1. rewrite segments_app_slash, Forall_app. tauto.
Qed.

Lemma dot_ne : slash ∉ [dot].
Proof. set_solver. Qed.

Lemma dotdot_ne : slash ∉ [dot; dot].
Proof. set_solver. Qed.

(** A pass on a path without dot segments moves its first segment. *)
Lemma body_spec_dot_free input output i o :
  dot_free input → body_spec input output i o →
  output ++ input = o ++ i ∧ dot_free i.
Proof.
  intros Hf Hs.
  destruct Hs as [r ->|r ->| ->|r ->| ->|r ->|Hd|c w rest -> Hw Hr Hseg].
  - apply (dot_free_split [dot; dot]) in Hf as [[]];
      [by right|apply dotdot_ne|by right].
  - apply (dot_free_split [dot]) in Hf as [[]]; [by left|apply dot_ne|by right].
  - apply dot_free_slash, (dot_free_split [dot] []) in Hf as [[]];
      [by left|apply dot_ne|by left].
  - apply dot_free_slash, (dot_free_split [dot]) in Hf as [[]];
      [by left|apply dot_ne|by right].
  - apply dot_free_slash, (dot_free_split [dot; dot] []) in Hf as [[]];
      [by right|apply dotdot_ne|by left].
  - apply dot_free_slash, (dot_free_split [dot; dot]) in Hf as [[]];
      [by right|apply dotdot_ne|by right].
  - rewrite <- (app_nil_r input) in Hf.
    apply dot_free_split in Hf as [[] _]; [done| |by left].
    destruct Hd as [->| ->]; [apply dot_ne|apply dotdot_ne].
  - split; [by rewrite <- app_assoc|].
    case_decide as Hc.
    + subst c. by apply dot_free_slash, dot_free_split in Hf as [_ ?].
    + apply (dot_free_split (c :: w)) in Hf as [_ ?]; [done|set_solver|done].
Qed.

(** The output never holds a dot segment, and a segment without a leading
    '/' is only ever moved to an empty output. *)
Lemma body_spec_output input output i o :
  dot_free output ∧ (output = [] ∨ input = [] ∨ head input = Some slash) →
  body_spec input output i o →
  dot_free o ∧ (o = [] ∨ i = [] ∨ head i = Some slash).
Proof.
  intros [Hf HJ] Hs.
  destruct Hs as [r ->|r ->| ->|r ->| ->|r ->|Hd|c w rest -> Hw Hr Hseg].
  - destruct HJ as [->|[?|?]]; [|done..]. split; [done|by left].
  - destruct HJ as [->|[?|?]]; [|done..]. split; [done|by left].
  - split; [done|]. by right; right.
  - split; [done|]. by right; right.
  - split; [by apply dot_free_remove_last|]. by right; right.
  - split; [by apply dot_free_remove_last|]. by right; right.
  - split; [done|]. by right; left.
  - split; [|right; destruct Hr; [by left|by right]].
    case_decide as Hc.
    + subst c. by apply dot_free_snoc.
    + destruct HJ as [->|[?|?]]; [|done|simplify_eq/=].
      simpl. unfold dot_free. rewrite segments_noslash by set_solver.
      by apply Forall_singleton.
Qed.

(** An absolute path keeps its leading '/'. *)
Lemma body_spec_absolute input output i o :
  (output = [] ∧ head input = Some slash)
  ∨ (head output = Some slash ∧ (input = [] ∨ head input = Some slash)) →
  body_spec input output i o →
  (o = [] ∧ head i = Some slash)
  ∨ (head o = Some slash ∧ (i = [] ∨ head i = Some slash)).
Proof.
  assert (∀ out, out = [] ∨ head out = Some slash →
                 remove_last_segment out = []
                 ∨ head (remove_last_segment out) = Some slash) as Hrls.
  { intros out [->|Ho]; [by left|]. unfold remove_last_segment.
    destruct (find_last_of out slash) as [[|j]|]; [by left| |by left].
    right. by destruct out. }
  assert (∀ o' i', o' = [] ∨ head o' = Some slash → head i' = Some slash →
            (o' = [] ∧ head i' = Some slash)
            ∨ (head o' = Some slash ∧ (i' = [] ∨ head i' = Some slash))) as Hmk.
  { intros o' i' [?|?] ?; [left|right]; eauto. }
  intros HI Hs.
  assert (head input = Some slash ∨ input = []) as Hin by naive_solver.
  assert (output = [] ∨ head output = Some slash) as Hout by naive_solver.
  clear HI.
  destruct Hs as [r ->|r ->| ->|r ->| ->|r ->|Hd|c w rest -> Hw Hr Hseg].
  - by destruct Hin.
  - by destruct Hin.
  - by apply Hmk.
  - by apply Hmk.
  - apply Hmk; [by apply Hrls|done].
  - apply Hmk; [by apply Hrls|done].
  - destruct Hd as [->| ->]; by destruct Hin.
  - destruct Hin as [[= ->]|?]; [|done]. right. split; [|done].
    destruct Hout as [->|?]; [done|]. by destruct output.
Qed.

Lemma removeDotSegments_invariant (I : list ascii → list ascii → Prop) p :
  (∀ input output i o,
     I input output → body_spec input output i o → I i o) →
  I p [] → ∃ r, removeDotSegments p = Some r ∧ I [] r.
Proof. intros Hstep HI. by apply loop_invariant. Qed.

Lemma removeDotSegments_dot_free_result p r :
  removeDotSegments p = Some r → dot_free r.
Proof.
  intros Hr.
  destruct (removeDotSegments_invariant
    (λ i o, dot_free o ∧ (o = [] ∨ i = [] ∨ head i = Some slash)) p)
    as (r' & Hr' & Hf & _); [apply body_spec_output| |].
  - split; [apply dot_free_nil|by left].
  - by simplify_eq.
Qed.

Lemma removeDotSegments_fixed p : dot_free p → removeDotSegments p = Some p.
Proof.
  intros Hf.
  destruct (removeDotSegments_invariant
    (λ i o, p = o ++ i ∧ dot_free i) p) as (r & Hr & Hp & _).
  - intros input output i o [-> Hi] Hs.
    by eapply body_spec_dot_free.
  - done.
  - rewrite app_nil_r in Hp. by subst r.
Qed.

Lemma loop_fuel fuel fuel' input output :
  length input ≤ fuel → length input ≤ fuel' →
  removeDotSegments_loop fuel input output
  = removeDotSegments_loop fuel' input output.
Proof.
  revert fuel' input output.
  induction fuel as [|fuel IH]; intros fuel' input output H1 H2.
  - destruct input; [by destruct fuel'|simpl in H1; lia].
  - destruct input as [|c s]; [by destruct fuel'|].
    destruct fuel' as [|fuel']; [simpl in H2; lia|].
    destruct (body_sound (c :: s) output) as (i & o & Hb & Hs); [done|].
    simpl. rewrite Hb. simpl.
    apply body_spec_length in Hs. simpl in *. apply IH; lia.
Qed.

Lemma removeDotSegments_total p : is_Some (removeDotSegments p).
Proof.
  destruct (removeDotSegments_invariant (λ _ _, True) p) as (r & -> & _); eauto.
Qed.

(** X17.  The path normaliser always returns: the loop needs at most one
    pass per character of the path, no [substr] call is out of range, the
    result is no longer than the path, and more fuel changes nothing. *)
Theorem removeDotSegments_returns (_path : list ascii) :
  ∃ r, removeDotSegments _path = Some r
       ∧ length r ≤ length _path
       ∧ ∀ extra,
           removeDotSegments_loop (length _path + extra) _path [] = Some r.
Proof.
  destruct (removeDotSegments_invariant
    (λ i o, length i + length o ≤ length _path) _path)
    as (r & Hr & Hlen).
  - intros input output i o Hlen Hs.
    apply body_spec_length in Hs. lia.
  - simpl. lia.
  - exists r. split_and!; [done|simpl in Hlen; lia|].
    intros extra. rewrite <- Hr. apply loop_fuel; lia.
Qed.

(** X18.  The result of the path normaliser has no segment "." or "..". *)
Theorem removeDotSegments_no_dot_segment (_path : list ascii) :
  ∃ r, removeDotSegments _path = Some r
       ∧ ∀ seg, seg ∈ segments r → seg ≠ [dot] ∧ seg ≠ [dot; dot].
Proof.
  destruct (removeDotSegments_total _path) as [r Hr]. exists r.
  split; [done|]. intros seg Hseg.
  apply removeDotSegments_dot_free_result in Hr.
  unfold dot_free in Hr. rewrite Forall_forall in Hr.
  specialize (Hr seg Hseg). unfold dot_segment in Hr. tauto.
Qed.

(** X19.  The paths the normaliser returns unchanged are exactly those
    without a dot segment. *)
Theorem removeDotSegments_fixed_points (_path : list ascii) :
  removeDotSegments _path = Some _path ↔ dot_free _path.
Proof.
  split; [apply removeDotSegments_dot_free_result|apply removeDotSegments_fixed].
Qed.

(** X20.  Normalising twice is normalising once. *)
Theorem removeDotSegments_idempotent (_path : list ascii) :
  removeDotSegments _path ≫= removeDotSegments = removeDotSegments _path.
Proof.
  destruct (removeDotSegments _path) as [r|] eqn:Hr; [|done]. simpl.
  by apply removeDotSegments_fixed, (removeDotSegments_dot_free_result _path).
Qed.

Lemma removeDotSegments_absolute p r :
  head p = Some slash → removeDotSegments p = Some r → head r = Some slash.
Proof.
  intros Hp Hr.
  destruct (removeDotSegments_invariant
    (λ i o, (o = [] ∧ head i = Some slash)
            ∨ (head o = Some slash ∧ (i = [] ∨ head i = Some slash))) p)
    as (r' & Hr' & [[_ ?]|[? _]]); [apply body_spec_absolute|by left|done|].
  by simplify_eq.
Qed.

(** X21.  A path that starts with '/' still starts with '/' after
    normalisation, however many ".." segments it holds. *)
Theorem removeDotSegments_keeps_root (_path : list ascii) :
  head _path = Some slash →
  ∃ r, removeDotSegments _path = Some r ∧ head r = Some slash.
Proof.
  intros Hp. destruct (removeDotSegments_total _path) as [r Hr].
  exists r. split; [done|]. by eapply removeDotSegments_absolute.
Qed.

Lemma mergePaths_total b r bp rp :
  mPath b = Some bp → mPath r = Some rp → is_Some (mergePaths b r).
Proof.
  intros Hb Hr. unfold mergePaths. rewrite Hb, Hr. simpl.
  destruct (_ && _); [eauto|]. destruct (find_last_of bp slash); eauto.
Qed.

(** X22.  Resolving a reference never answers [false]: with both paths
    defined it answers [true], the fragment is the reference's, and the
    path is free of dot segments unless the reference has no scheme, no
    authority and an empty path, in which case the base's path is kept as
    it is; with a path undefined an [assert] fails. *)
Theorem fromRelativeUri_true (_base _relative : Uri) (_strict : bool) :
  match mPath _base, mPath _relative with
  | Some basePath, Some relativePath =>
      ∃ u, fromRelativeUri _base _relative _strict = Some (true, u)
           ∧ mFragment u = mFragment _relative
           ∧ if bool_decide (mScheme _relative = None
                             ∧ mAuthority _relative = None
                             ∧ relativePath = [])
             then mPath u = Some basePath
                  ∧ mScheme u = mScheme _base
                  ∧ mAuthority u = mAuthority _base
             else ∃ p, mPath u = Some p ∧ dot_free p
  | _, _ => fromRelativeUri _base _relative _strict = None
  end.
Proof.
  unfold fromRelativeUri.
  destruct (mPath _base) as [bp|] eqn:Hb; [|done].
  destruct (mPath _relative) as [rp|] eqn:Hr; [|done]. simpl.
  destruct (mScheme _relative) as [s|] eqn:Hs.
  { destruct (removeDotSegments rp) as [p|] eqn:Hp;
      [|by destruct (removeDotSegments_total rp); simplify_eq].
    simpl. eexists. split_and!; [done..|].
    rewrite ?bool_decide_eq_false_2 by naive_solver. simpl.
    eauto using removeDotSegments_dot_free_result. }
  destruct (mAuthority _relative) as [a|] eqn:Ha.
  { destruct (removeDotSegments rp) as [p|] eqn:Hp;
      [|by destruct (removeDotSegments_total rp); simplify_eq].
    simpl. eexists. split_and!; [done..|].
    rewrite ?bool_decide_eq_false_2 by naive_solver. simpl.
    eauto using removeDotSegments_dot_free_result. }
  destruct rp as [|c rp].
  { eexists. split_and!; [done..|].
    rewrite ?bool_decide_eq_true_2 by done. by simpl. }
  assert (∃ p, (if bool_decide (head (c :: rp) = Some slash)
                then removeDotSegments (c :: rp)
                else mergePaths _base _relative
                     ≫= λ merged, removeDotSegments merged) = Some p
               ∧ dot_free p) as (p & -> & Hp).
  { case_bool_decide.
    - destruct (removeDotSegments_total (c :: rp)) as [p Hp].
      eauto using removeDotSegments_dot_free_result.
    - destruct (mergePaths_total _base _relative bp (c :: rp)) as [m ->];
        [done..|]. simpl.
      destruct (removeDotSegments_total m) as [p Hp].
      eauto using removeDotSegments_dot_free_result. }
  simpl. eexists. split_and!; [done..|].
  rewrite ?bool_decide_eq_false_2 by naive_solver. simpl. eauto.
Qed.

(** ** Further worked examples *)

Lemma cyclic_chain_never_returns_witness :
  (∀ fuel, assemble sdfJointKind fuel cycleLinks cycleJoints = None)
  ∧ (∀ s', rtc (steps_to sdfJointKind (readAllBodyNodes cycleLinks).1)
             (initState (collectJoints cycleJoints).1
                ((readAllBodyNodes cycleLinks).2
                 ++ (collectJoints cycleJoints).2)) s' →
           newSkeleton s' = [] ∧ sdfJoints s' = (collectJoints cycleJoints).1).
Proof.
  apply (cyclic_chain_never_returns sdfJointKind cycleLinks cycleJoints
           (initState (collectJoints cycleJoints).1
              ((readAllBodyNodes cycleLinks).2 ++ (collectJoints cycleJoints).2))
           "A").
  - apply rtc_refl.
  - vm_compute; reflexivity.
  - eapply tc_l; [|apply tc_once].
    + exists (revolute "J1" "B" "A").
      split_and!; [vm_compute; reflexivity|reflexivity|].
      exists (revolute "J2" "A" "B"). vm_compute; reflexivity.
    + exists (revolute "J2" "A" "B").
      split_and!; [vm_compute; reflexivity|reflexivity|].
      exists (revolute "J1" "B" "A"). vm_compute; reflexivity.
  - vm_compute; reflexivity.
Defined.

Lemma skeleton_of_distinct_links_witness :
  NoDup (getName <$> newSkeleton chainFinal)
  ∧ ∀ bn, bn ∈ newSkeleton chainFinal →
          (readAllBodyNodes chainLinks).1 !! getName bn = Some (body bn).
Proof.
  apply (skeleton_of_distinct_links sdfJointKind chainLinks chainJoints).
  right. exists 20, LoopEnd. vm_compute; reflexivity.
Defined.

Lemma skeleton_members_witness :
  (∀ n, n ∈ getName <$> newSkeleton chainFinal →
        is_Some ((collectJoints chainJoints).1 !! n)
        ∨ ((collectJoints chainJoints).1 !! n = None
           ∧ named_parent (collectJoints chainJoints).1 n))
  ∧ (LoopEnd = LoopEnd →
     ∀ n, is_Some ((collectJoints chainJoints).1 !! n)
          ∨ named_parent (collectJoints chainJoints).1 n →
          n ∈ getName <$> newSkeleton chainFinal)
  ∧ ((collectJoints chainJoints).1 = ∅ → newSkeleton chainFinal = []).
Proof.
  apply (skeleton_members sdfJointKind chainLinks chainJoints 20).
  vm_compute; reflexivity.
Defined.

Lemma parent_is_the_named_node_witness :
  ∃ bn, newSkeleton worldFinal !! 1 = Some bn
        ∧ parentName (joint bn) = "world"
        ∧ parentBodyNode bn = Some 0.
Proof.
  eexists. split; [reflexivity|]. split; [reflexivity|].
  refine (proj1 (proj2 (parent_is_the_named_node sdfJointKind worldLinks
                          worldJoints worldFinal 1 _ _ _ _)) 0 _ _ _ _).
  - right. exists 20, LoopEnd. vm_compute; reflexivity.
  - reflexivity.
  - vm_compute; reflexivity.
  - lia.
  - reflexivity.
  - reflexivity.
Defined.

Lemma loop_appends_and_erases_witness :
  newSkeleton chainInit `prefix_of` newSkeleton chainSecond
  ∧ sdfJoints chainSecond ⊆ sdfJoints chainInit
  ∧ (steps_to sdfJointKind (readAllBodyNodes chainLinks).1
       chainInit chainSecond →
     length (newSkeleton chainSecond) ≤ S (length (newSkeleton chainInit))
     ∧ size (sdfJoints chainInit) ≤ S (size (sdfJoints chainSecond))).
Proof.
  apply (loop_appends_and_erases sdfJointKind chainLinks chainJoints).
  - apply rtc_refl.
  - apply rtc_once. vm_compute; reflexivity.
Defined.

Lemma buildable_input_completes_witness :
  ∃ s, assemble sdfJointKind 7 chainLinks chainJoints = Some (LoopEnd, s)
       ∧ sdfJoints s = ∅
       ∧ dterr s = [].
Proof.
  apply (buildable_input_completes sdfJointKind chainLinks chainJoints).
  - apply acyclicb_sound. vm_compute; reflexivity.
  - split_and!.
    + intros k j Hkj. apply elem_of_map_to_list in Hkj.
      let l := eval vm_compute in (map_to_list (collectJoints chainJoints).1)
      in change (map_to_list (collectJoints chainJoints).1) with l in Hkj.
      repeat (apply elem_of_cons in Hkj as [[= -> ->]|Hkj];
              [split; [split; [|right; right]|]; vm_compute; eauto|]).
      by apply not_elem_of_nil in Hkj.
    + intros n b Hnb. apply elem_of_map_to_list in Hnb.
      let l := eval vm_compute in (map_to_list (readAllBodyNodes chainLinks).1)
      in change (map_to_list (readAllBodyNodes chainLinks).1) with l in Hnb.
      repeat (apply elem_of_cons in Hnb as [[= -> ->]|Hnb]; [by left|]).
      by apply not_elem_of_nil in Hnb.
    + vm_compute; eauto.
Defined.

Lemma readJoint_returns_witness :
  let e := jointElement "revolute" "J1" "A" "B" in
  let sdfBodyNodes := (readAllBodyNodes cycleLinks).1 in
  let j := {| properties := {| mName := "J1"; mT_ParentBodyToJoint := 1%Z;
                               mT_ChildBodyToJoint := 0%Z;
                               mClass := RevoluteJoint |};
              parentName := "A"; childName := "B"; type := "revolute" |} in
  type j = je_type e
  ∧ je_type e ∈ ["prismatic"; "revolute"; "screw"; "revolute2"; "ball"]
  ∧ (je_type e ≠ "ball" → je_axis e = true)
  ∧ (je_type e = "revolute2" → je_axis2 e = true)
  ∧ mName (properties j) = je_name e
  ∧ parentName j ≠ "world"
  ∧ (∃ c, je_child e = Some c ∧ is_Some (sdfBodyNodes !! c))
  ∧ ((je_parent e = Some "world" ∧ parentName j = "" ∧ childName j = "")
     ∨ (je_parent e = Some (parentName j)
        ∧ je_child e = Some (childName j)
        ∧ is_Some (sdfBodyNodes !! parentName j)
        ∧ is_Some (sdfBodyNodes !! childName j))).
Proof.
  intros e sdfBodyNodes j. apply (readJoint_returns e sdfBodyNodes j).
  vm_compute; reflexivity.
Defined.

Lemma file_joints_find_their_links_witness :
  readSkeleton sdfJointKind 20 hardModel = Ok (Some (LoopBreak, hardFinal))
  ∧ Forall (λ d, missing_report d = false) (dterr hardFinal)
  ∧ (LoopBreak = LoopBreak →
     ∃ reports d, dterr hardFinal = reports ++ [d]
                  ∧ ((∃ t, d = UnsupportedLinkType t)
                     ∨ (∃ t, d = UnsupportedJointType t))).
Proof.
  split; [vm_compute; reflexivity|].
  apply (file_joints_find_their_links sdfJointKind 20 hardModel).
  vm_compute; reflexivity.
Defined.

Lemma readWorld_adds_every_model_witness :
  ∃ r, readWorld sdfJointKind 20 twoModels = Ok (Some r)
       ∧ ∃ W, returned r = Some W
              ∧ getName_world W = "default"
              ∧ Forall2 (λ m sk, ∃ ex s,
                           readSkeleton sdfJointKind 20 m = Ok (Some (ex, s))
                           ∧ sk = newSkeleton s)
                  (world_models twoModels) (skeletons W).
Proof.
  eexists. split; [vm_compute; reflexivity|].
  apply (readWorld_adds_every_model sdfJointKind 20 twoModels).
  vm_compute; reflexivity.
Defined.

Lemma readBodyNode_inertial_witness :
  let Ic (shape : string) (mass : Z) (i j : nat) : Z :=
    if decide (i = j) then mass else 0%Z in
  let fresh := {| getMass := 1%Z; getLocalCOM := (0, 0, 0)%Z;
                  getMoment := {| ixx := 1%Z; iyy := 1%Z; izz := 1%Z;
                                  ixy := 0%Z; ixz := 0%Z; iyz := 0%Z |} |} in
  let inertia :=
    mInertia (readBodyNode Ic (λ t : Z, (t, 0, 0)%Z) fresh massOnly) in
  getMass inertia = 5%Z
  ∧ getLocalCOM inertia = (0, 0, 0)%Z
  ∧ (∀ moi, None = Some moi → getMoment inertia = moi).
Proof.
  intros Ic fresh.
  apply (readBodyNode_inertial Ic (λ t : Z, (t, 0, 0)%Z) fresh massOnly
           {| ie_mass := Some 5%Z; ie_pose := None; ie_inertia := None |}).
  reflexivity.
Defined.

Lemma readShape_null_witness :
  readShape Z.mul 2%Z 0%Z noMesh meshVisual "models/" = NullDereference.
Proof.
  apply (proj1 (readShape_null Z.mul 2%Z 0%Z noMesh meshVisual
                  {| g_box := None; g_sphere := None; g_cylinder := None;
                     g_plane := None;
                     g_mesh := Some ("wheel.dae", (1, 1, 1)%Z) |}
                  "models/" eq_refl)).
  split; [by exists 3%Z|]. exists "wheel.dae".
  split_and!; try reflexivity. by exists (1, 1, 1)%Z.
Defined.

Lemma failed_mesh_with_pose_stops_link_witness :
  readShapes Z.mul 2%Z 0%Z noMesh [boxVisual; meshVisual] "models/"
  = NullDereference.
Proof.
  apply (failed_mesh_with_pose_stops_link Z.mul 2%Z 0%Z noMesh
           [boxVisual; meshVisual] meshVisual
           {| g_box := None; g_sphere := None; g_cylinder := None;
              g_plane := None;
              g_mesh := Some ("wheel.dae", (1, 1, 1)%Z) |}
           "models/" "wheel.dae").
  - repeat constructor; by eexists.
  - apply elem_of_cons. right. apply elem_of_cons. by left.
  - reflexivity.
  - by exists 3%Z.
  - split_and!; try reflexivity. by exists (1, 1, 1)%Z.
Defined.

Lemma removeDotSegments_keeps_root_witness :
  ∃ r, removeDotSegments (chars "/a/../../b/./c") = Some r
       ∧ head r = Some slash.
Proof. apply removeDotSegments_keeps_root. reflexivity. Defined.
